(** * GraphRAG retrieval core: intent classifier, query-spec builder, ranker

    A shallow embedding of [intent.py], [cypher_builder.py] and [ranker.py].

    Conventions of the embedding.
    - A Python [str] is a [string]; its characters are read as the code
      points 0..255 (Latin-1), on which [str.lower], [str.strip] and the
      regular-expression class [\s] are written out below.
    - A Python [dict] with string keys is a [gmap string _].
    - A Python [float] is an exact rational ([Q]); the literals [0.5], [0.3],
      [0.2], [0.6] are the rationals 1/2, 3/10, 1/5, 3/5.
    - A call that raises returns [None]. *)

From Stdlib Require Import Ascii String NArith QArith Qminmax Lqa.
From Stdlib Require Import Sorting.Sorted Sorting.Permutation.
From stdpp Require Import base option list strings gmap sorting.

Open Scope string_scope.
Open Scope list_scope.

(* ===================================================================== *)
(** ** Python string primitives                                           *)
(* ===================================================================== *)

Definition code (c : ascii) : N := N_of_ascii c.

Definition in_range (lo hi : N) (c : ascii) : bool :=
  ((lo <=? code c) && (code c <=? hi))%N.

(** [[a-zA-Z]] of the token pattern. *)
Definition is_letter (c : ascii) : bool :=
  in_range 97 122 c || in_range 65 90 c.

(** [[a-zA-Z\-]] of the token pattern. *)
Definition is_tokchar (c : ascii) : bool :=
  is_letter c || (code c =? 45)%N.

(** Characters for which [str.isspace] holds; [str.strip] and [\s] use the
    same set. *)
Definition is_space (c : ascii) : bool :=
  in_range 9 13 c || in_range 28 32 c || (code c =? 133)%N || (code c =? 160)%N.

(** Characters with a distinct lower-case form: A-Z, and the Latin-1 capitals
    (the multiplication sign 215 is not a letter). *)
Definition is_upper (c : ascii) : bool :=
  in_range 65 90 c || in_range 192 214 c || in_range 216 222 c.

Definition char_lower (c : ascii) : ascii :=
  if is_upper c then ascii_of_N (code c + 32) else c.

(** [s.lower()] on the code points 0..255, where it maps character by
    character.  (Beyond this range [str.lower] can change the number of
    characters, as for U+0130; no statement below relies on the length of
    [lower s].) *)
Fixpoint lower (s : string) : string :=
  match s with
  | EmptyString => EmptyString
  | String c s' => String (char_lower c) (lower s')
  end.

Fixpoint lstrip (s : string) : string :=
  match s with
  | EmptyString => EmptyString
  | String c s' => if is_space c then lstrip s' else s
  end.

Fixpoint rstrip (s : string) : string :=
  match s with
  | EmptyString => EmptyString
  | String c s' =>
      match rstrip s' with
      | EmptyString => if is_space c then EmptyString else String c EmptyString
      | r => String c r
      end
  end.

(** [s.strip()] *)
Definition strip (s : string) : string := rstrip (lstrip s).

(** [re.sub(r"\s+", " ", s)]: every maximal run of whitespace becomes one
    space.  A whitespace character followed by another one is dropped; the
    last one of the run yields the space. *)
Fixpoint collapse_ws (s : string) : string :=
  match s with
  | EmptyString => EmptyString
  | String c s' =>
      if is_space c then
        match s' with
        | EmptyString => String " " EmptyString
        | String c' _ =>
            if is_space c' then collapse_ws s' else String " " (collapse_ws s')
        end
      else String c (collapse_ws s')
  end.

Fixpoint startswith (p s : string) : bool :=
  match p, s with
  | EmptyString, _ => true
  | String _ _, EmptyString => false
  | String a p', String b s' => Ascii.eqb a b && startswith p' s'
  end.

(** [p in s] on two strings: [p] occurs in [s] as a contiguous substring. *)
Fixpoint str_in (p s : string) : bool :=
  startswith p s ||
  match s with
  | EmptyString => false
  | String _ s' => str_in p s'
  end.

(* ===================================================================== *)
(** ** intent.py                                                          *)
(* ===================================================================== *)

(** The dictionary literal [INTENTS]; a Python dict iterates in insertion
    order, so [INTENTS.items()] is this list. *)
Definition INTENTS : list (string * list string) :=
  [ ("symptoms", ["symptom"; "symptoms"]);
    ("risk_factors", ["risk"; "risk factor"; "risk factors"; "increase the risk"]);
    ("diagnostic_techniques", ["diagnostic"; "diagnosis"; "technique"; "techniques"]);
    ("dataset", ["dataset"; "data set"; "instances"; "features"; "source"]);
    ("cancer_types", ["type of cancer"; "types of cancer"; "cancer types"; "stage"; "stages"]);
    ("results", ["accuracy"; "result"; "results"; "benchmark"; "performance"; "best model"]);
    ("conclusion", ["conclusion"; "summary"]) ].

Definition ALGORITHM_ALIASES : list (string * list string) :=
  [ ("svm", ["svm"; "support vector"]);
    ("ann", ["ann"; "artificial neural"]);
    ("rf", ["rf"; "random forest"]);
    ("mlr", ["mlr"; "multiple linear regression"]) ].

Definition SECTION_NAMES : list string :=
  ["abstract"; "introduction"; "methodology"; "results"; "conclusion"].

Definition _normalize (text : string) : string :=
  collapse_ws (strip (lower text)).

(** The inner loop [for kw in keywords: if kw in q: return intent]. *)
Fixpoint scan_keywords (q intent : string) (keywords : list string) : option string :=
  match keywords with
  | [] => None
  | kw :: rest => if str_in kw q then Some intent else scan_keywords q intent rest
  end.

(** The outer loop over [INTENTS.items()]; [None] when it runs to its end. *)
Fixpoint scan_intents (q : string) (table : list (string * list string)) : option string :=
  match table with
  | [] => None
  | (intent, keywords) :: rest =>
      match scan_keywords q intent keywords with
      | Some i => Some i
      | None => scan_intents q rest
      end
  end.

Definition _detect_intent (question : string) : string :=
  let q := _normalize question in
  match scan_intents q INTENTS with
  | Some intent => intent
  | None => "generic"
  end.

(** Entity sets: the dict [{"diseases": .., "algorithms": .., "sections": ..}]. *)
Definition _extract_entities (question : string) : gmap string (list string) :=
  let q := _normalize question in
  let diseases := if str_in "lung cancer" q then ["lung cancer"] else [] in
  let algorithms :=
    omap (fun '(short, kws) =>
            if existsb (fun kw => str_in kw q) kws then Some short else None)
         ALGORITHM_ALIASES in
  let sections := filter (fun s => str_in s q = true) SECTION_NAMES in
  <["sections" := sections]> (<["algorithms" := algorithms]> (<["diseases" := diseases]> ∅)).

(** The two entries of the dict returned by [classify_intent_and_entities]. *)
Inductive classified :=
  | CIntent (intent : string)
  | CEntities (entities : gmap string (list string)).

Definition classify_intent_and_entities (question : string) : gmap string classified :=
  let intent := _detect_intent question in
  let entities := _extract_entities question in
  <["entities" := CEntities entities]> (<["intent" := CIntent intent]> ∅).

(** The keywords of a table, each with its intent, in iteration order. *)
Definition keywords_in_order (table : list (string * list string)) : list (string * string) :=
  table ≫= (fun '(intent, kws) => (fun kw => (intent, kw)) <$> kws).

(* ===================================================================== *)
(** ** cypher_builder.py                                                  *)
(* ===================================================================== *)

Record query_spec := QuerySpec {
  tag : string;
  query : string;
  params : gmap string string
}.

Definition append {A} (l : list A) (x : A) : list A := l ++ [x].

Definition build_queries (intent : string) (entities : gmap string (list string))
    (question_text : string) : list query_spec :=
  let specs : list query_spec := [] in
  let specs :=
    if String.eqb intent "symptoms" then
      append specs (QuerySpec "Symptoms"
        "MATCH (:Introduction)-[:MENTIONS_SYMPTOM]->(s:Symptom) RETURN s.name AS item" ∅)
    else if String.eqb intent "risk_factors" then
      append specs (QuerySpec "RiskFactors"
        "MATCH (:Introduction)-[:IDENTIFIES_RISK_FACTOR]->(r:RiskFactor) RETURN r.name AS item" ∅)
    else if String.eqb intent "diagnostic_techniques" then
      append specs (QuerySpec "DiagnosticTechniques"
        "MATCH (:Introduction)-[:USES_TECHNIQUE]->(t:Technique) RETURN t.name AS item" ∅)
    else if String.eqb intent "dataset" then
      append specs (QuerySpec "Dataset"
        "MATCH (:Methodology)-[:USES_DATASET]->(d:Dataset) RETURN d.name AS name, d.source AS source, d.instances AS instances, d.features AS features, d.format AS format" ∅)
    else if String.eqb intent "cancer_types" then
      append specs (QuerySpec "CancerTypes"
        "MATCH (:Introduction)-[:DISCUSSES_CANCER_TYPE]->(c:CancerType) RETURN c.name AS item" ∅)
    else if String.eqb intent "results" then
      append
        (append specs (QuerySpec "Results"
           "MATCH (m:Model)-[:HAS_RESULT]->(r:Result) RETURN coalesce(m.full_name,m.name) AS model, r.metric AS metric, r.accuracy AS accuracy" ∅))
        (QuerySpec "BestModel"
           "MATCH (:Paper)-[:BEST_MODEL]->(m:Model) RETURN coalesce(m.full_name,m.name) AS bestModel" ∅)
    else if String.eqb intent "conclusion" then
      append specs (QuerySpec "Conclusion"
        "MATCH (s:Section:Conclusion) RETURN s.name AS name, s.text AS text" ∅)
    else specs in
  let specs :=
    match specs with
    | [] =>
        append specs (QuerySpec "Sections"
          "MATCH (s:Section) WHERE toLower(s.text) CONTAINS toLower($q) RETURN s.name AS name, s.text AS text LIMIT 50"
          {["q" := question_text]})
    | _ => specs
    end in
  specs.

(* ===================================================================== *)
(** ** ranker.py                                                          *)
(* ===================================================================== *)

(** The values a result row may hold: [None], booleans, integers, floats and
    strings. *)
Inductive value :=
  | VNone
  | VBool (b : bool)
  | VInt (z : Z)
  | VFloat (f : Q)
  | VStr (s : string).

(** Python truth value of an object. *)
Definition truthy (v : value) : bool :=
  match v with
  | VNone => false
  | VBool b => b
  | VInt z => negb (z =? 0)%Z
  | VFloat f => negb (Qeq_bool f 0)
  | VStr s => negb (String.eqb s "")
  end.

(** [a or b] *)
Definition py_or (a b : value) : value := if truthy a then a else b.

(** [r.get(k)] *)
Definition dict_get (r : gmap string value) (k : string) : value :=
  match r !! k with
  | Some v => v
  | None => VNone
  end.

(** [(text or "").lower()]; an object that is truthy and not a string has
    no [lower] method, and the call raises. *)
Definition or_empty_lower (text : value) : option string :=
  match py_or text (VStr "") with
  | VStr s => Some (lower s)
  | _ => None
  end.

(** The longest prefix of [s] made of [[a-zA-Z\-]]. *)
Fixpoint take_tokchars (s : string) : string :=
  match s with
  | EmptyString => EmptyString
  | String c s' => if is_tokchar c then String c (take_tokchars s') else EmptyString
  end.

(** The pattern [[a-zA-Z][a-zA-Z\-]{2,}] matched at the start of [s]: the
    repetition is greedy and nothing follows it, so the match, when there is
    one, takes every token character after the first letter. *)
Definition match_at (s : string) : option string :=
  match s with
  | EmptyString => None
  | String c s' =>
      if is_letter c then
        let m := take_tokchars s' in
        if (2 <=? String.length m)%nat then Some (String c m) else None
      else None
  end.

(** [re.findall(pattern, s)]: scan from the left; where the pattern matches,
    emit the match and resume right after it ([skip] counts the characters
    of a match still to pass over); where it does not, move on by one
    character. *)
Fixpoint findall (skip : nat) (s : string) : list string :=
  match s with
  | EmptyString => []
  | String c s' =>
      match skip with
      | S k => findall k s'
      | O =>
          match match_at s with
          | Some m => m :: findall (String.length m - 1) s'
          | None => findall 0 s'
          end
      end
  end.

Definition _tokenize (text : value) : option (list string) :=
  s ← or_empty_lower text;
  Some (findall 0 s).

Definition lexical_overlap_score (question : string) (text : value) : option Q :=
  q_list ← _tokenize (VStr question);
  t_list ← _tokenize text;
  let q_tokens : gset string := list_to_set q_list in
  let t_tokens : gset string := list_to_set t_list in
  if bool_decide (q_tokens = ∅) || bool_decide (t_tokens = ∅) then Some 0%Q
  else
    let inter := size (q_tokens ∩ t_tokens) in
    Some (inject_Z (Z.of_nat inter) / inject_Z (Z.max 1 (Z.of_nat (size q_tokens))))%Q.

(** [entities.get(k, [])] *)
Definition entity_list (entities : gmap string (list string)) (k : string) : list string :=
  match entities !! k with
  | Some l => l
  | None => []
  end.

(** One of the two loops [for x in xs: if x in t: score += 0.2]. *)
Definition add_matches (t : string) (xs : list string) (score : Q) : Q :=
  fold_left (fun score x => if str_in x t then (score + 0.2)%Q else score) xs score.

Definition entity_match_boost (text : value) (entities : gmap string (list string)) : option Q :=
  let score := 0%Q in
  t ← or_empty_lower text;
  let score := add_matches t (entity_list entities "algorithms") score in
  let score := add_matches t (entity_list entities "diseases") score in
  Some (Qmin score 0.6).

(** The set literal tested by [score_items]. *)
Definition DOMAIN_TAGS : gset string :=
  {[ "Symptoms"; "RiskFactors"; "DiagnosticTechniques"; "CancerTypes";
     "Dataset"; "Results"; "Conclusion" ]}.

(** [r.get("text") or r.get("item") or r.get("model") or ""] *)
Definition row_text (r : gmap string value) : value :=
  py_or (py_or (py_or (dict_get r "text") (dict_get r "item")) (dict_get r "model")) (VStr "").

Definition proximity (tag : string) : Q :=
  if bool_decide (tag ∈ DOMAIN_TAGS) then 0.2%Q else 0%Q.

(** The value [final] computed for one row. *)
Definition final_score (question tag : string) (r : gmap string value)
    (entities : gmap string (list string)) : option Q :=
  let text := row_text r in
  lex ← lexical_overlap_score question text;
  ent ← entity_match_boost text entities;
  let prox := proximity tag in
  Some (0.5 * lex + 0.3 * ent + 0.2 * prox)%Q.

(** The body of the loop of [score_items], on dict values: the row it
    appends to [scored]. *)
Definition score_row (question tag : string) (entities : gmap string (list string))
    (r : gmap string value) : option (gmap string value) :=
  final ← final_score question tag r entities;
  let r_scored := r in
  let r_scored := <["_score" := VFloat final]> r_scored in
  let r_scored := <["_tag" := VStr tag]> r_scored in
  Some r_scored.

(** [list.sort(key=..., reverse=True)] is a stable sort: the keys are
    computed once per element, the result is in descending key order, and
    elements with equal keys keep the order they had.  It is modelled by a
    stable insertion sort on the (key, element) pairs. *)
Fixpoint insert_desc {A} (x : Q * A) (l : list (Q * A)) : list (Q * A) :=
  match l with
  | [] => [x]
  | y :: l' => if Qle_bool (fst y) (fst x) then x :: l else y :: insert_desc x l'
  end.

Definition sort_desc {A} (l : list (Q * A)) : list (Q * A) :=
  foldr insert_desc [] l.

Definition list_sort_reverse {A} (key : A → option Q) (l : list A) : option (list A) :=
  keys ← mapM key l;
  Some (snd <$> sort_desc (zip keys l)).

(** [lambda x: x["_score"]]; a missing key raises.  The score is a float in
    every row the loop builds. *)
Definition score_key (x : gmap string value) : option Q :=
  match x !! "_score" with
  | Some (VFloat f) => Some f
  | _ => None
  end.

Definition score_items (question tag : string) (rows : list (gmap string value))
    (entities : gmap string (list string)) : option (list (gmap string value)) :=
  scored ← mapM (score_row question tag entities) rows;
  list_sort_reverse score_key scored.

(** [l[:n]] for an integer [n]: the first [n] elements, and for a negative
    [n] all but the last [-n]. *)
Definition slice_to {A} (l : list A) (n : Z) : list A :=
  if (0 <=? n)%Z then take (Z.to_nat n) l
  else take (Z.to_nat (Z.of_nat (List.length l) + n)) l.

Definition select_top_n {A} (scored_items : list A) (n : Z) : list A :=
  slice_to scored_items n.

(** The call [select_top_n(scored_items)], with the default [n=8]. *)
Definition select_top_n_default {A} (scored_items : list A) : list A :=
  select_top_n scored_items 8.

(** *** [score_items] over an object store

    Rows are objects: the caller's list holds references to dicts, and
    [dict(r)] allocates a new one.  The store lists the dicts in allocation
    order; a reference is an index into it. *)

(** [dict(d)]: a new object holding a copy of the entries of [d]. *)
Definition new_dict (d : gmap string value) (h : list (gmap string value))
    : nat * list (gmap string value) :=
  (List.length h, h ++ [d]).

(** [o[k] = v] *)
Definition setitem (o : nat) (k : string) (v : value) (h : list (gmap string value))
    : option (list (gmap string value)) :=
  d ← h !! o;
  Some (<[o := <[k := v]> d]> h).

Fixpoint score_loop (question tag : string) (entities : gmap string (list string))
    (rows : list nat) (scored : list nat) (h : list (gmap string value))
    : option (list nat * list (gmap string value)) :=
  match rows with
  | [] => Some (scored, h)
  | r :: rest =>
      d ← h !! r;
      final ← final_score question tag d entities;
      let '(r_scored, h) := new_dict d h in
      h ← setitem r_scored "_score" (VFloat final) h;
      h ← setitem r_scored "_tag" (VStr tag) h;
      score_loop question tag entities rest (append scored r_scored) h
  end.

Definition score_items_st (question tag : string) (rows : list nat)
    (entities : gmap string (list string)) (h : list (gmap string value))
    : option (list nat * list (gmap string value)) :=
  '(scored, h) ← score_loop question tag entities rows [] h;
  sorted ← list_sort_reverse (fun x => d ← h !! x; score_key d) scored;
  Some (sorted, h).

(** *** Reference readings of two sentences of the specification *)

(** Text-field precedence decided by the presence of the field. *)
Definition text_by_presence (r : gmap string value) : value :=
  match r !! "text" with
  | Some v => v
  | None =>
      match r !! "item" with
      | Some v => v
      | None =>
          match r !! "model" with
          | Some v => v
          | None => VStr ""
          end
      end
  end.

(** The maximal runs of token characters of [s], left to right. *)
Fixpoint runs (s : string) : list string :=
  match s with
  | EmptyString => []
  | String c s' =>
      if is_tokchar c then
        match s' with
        | EmptyString => [String c EmptyString]
        | String c' _ =>
            if is_tokchar c' then
              match runs s' with
              | r :: rs => String c r :: rs
              | [] => [String c EmptyString]
              end
            else String c EmptyString :: runs s'
        end
      else runs s'
  end.

(** Tokens as "the maximal runs of letters and hyphens of length at least 3". *)
Definition tokens_by_runs (s : string) : list string :=
  filter (fun r => (3 ≤ String.length r)%nat) (runs (lower s)).

(** A run without its leading hyphens. *)
Fixpoint drop_hyphens (s : string) : string :=
  match s with
  | EmptyString => EmptyString
  | String c s' => if is_letter c then s else drop_hyphens s'
  end.

(* ===================================================================== *)
(** ** Vocabulary of the statements                                       *)
(* ===================================================================== *)

(** No character of [s] has a lower-case form other than itself. *)
Fixpoint no_upper (s : string) : bool :=
  match s with
  | EmptyString => true
  | String c s' => negb (is_upper c) && no_upper s'
  end.

Definition starts_space (s : string) : bool :=
  match s with
  | EmptyString => false
  | String c _ => is_space c
  end.

Fixpoint ends_space (s : string) : bool :=
  match s with
  | EmptyString => false
  | String c s' =>
      match s' with
      | EmptyString => is_space c
      | String _ _ => ends_space s'
      end
  end.

(** The only whitespace of [s] is the space character, and no two spaces
    are adjacent. *)
Fixpoint single_spaced (s : string) : bool :=
  match s with
  | EmptyString => true
  | String c s' =>
      (if is_space c then Ascii.eqb c " " && negb (starts_space s') else true)
      && single_spaced s'
  end.

(** Lower-cased, trimmed, whitespace runs collapsed. *)
Definition normal_form (s : string) : Prop :=
  no_upper s = true ∧ starts_space s = false ∧ ends_space s = false ∧
  single_spaced s = true.

(** Every character of [s] is whitespace. *)
Fixpoint all_space (s : string) : bool :=
  match s with
  | EmptyString => true
  | String c s' => is_space c && all_space s'
  end.

(** The keyword table without the keywords that contain an earlier keyword
    of their own intent. *)
Definition INTENTS_CORE : list (string * list string) :=
  [ ("symptoms", ["symptom"]);
    ("risk_factors", ["risk"]);
    ("diagnostic_techniques", ["diagnostic"; "diagnosis"; "technique"]);
    ("dataset", ["dataset"; "data set"; "instances"; "features"; "source"]);
    ("cancer_types", ["type of cancer"; "types of cancer"; "cancer types"; "stage"]);
    ("results", ["accuracy"; "result"; "benchmark"; "performance"; "best model"]);
    ("conclusion", ["conclusion"; "summary"]) ].

(** Every keyword of [l1] contains a keyword of [l2]. *)
Definition covered (l1 l2 : list string) : bool :=
  forallb (fun kw => existsb (fun k => str_in k kw) l2) l1.

(** Two tables list the same intents in the same order, and the keywords of
    each intent in one table contain keywords of that intent in the other. *)
Fixpoint same_hits (t1 t2 : list (string * list string)) : bool :=
  match t1, t2 with
  | [], [] => true
  | (i1, k1) :: r1, (i2, k2) :: r2 =>
      String.eqb i1 i2 && covered k1 k2 && covered k2 k1 && same_hits r1 r2
  | _, _ => false
  end.

(** The intent of the first pair of a flattened table whose keyword occurs
    in [q]. *)
Fixpoint first_hit (q : string) (l : list (string * string)) : option string :=
  match l with
  | [] => None
  | (intent, kw) :: rest => if str_in kw q then Some intent else first_hit q rest
  end.

(** The intents that have a branch of their own in [build_queries]. *)
Definition SPECIFIC_INTENTS : list string :=
  ["symptoms"; "risk_factors"; "diagnostic_techniques"; "dataset";
   "cancer_types"; "results"; "conclusion"].

(** What follows the longest prefix of token characters. *)
Fixpoint drop_tokchars (s : string) : string :=
  match s with
  | EmptyString => EmptyString
  | String c s' => if is_tokchar c then drop_tokchars s' else s
  end.

(** Every character of [s] is a token character. *)
Fixpoint all_tok (s : string) : bool :=
  match s with
  | EmptyString => true
  | String c s' => is_tokchar c && all_tok s'
  end.

(** [s] starts with a token character. *)
Definition starts_tok (s : string) : bool :=
  match s with
  | EmptyString => false
  | String c _ => is_tokchar c
  end.

(** What a maximal run contributes to the tokens. *)
Definition run_token (r : string) : list string :=
  filter (fun t => (3 ≤ String.length t)%nat) [drop_hyphens r].

(** The token set of a string. *)
Definition token_set (s : string) : gset string :=
  list_to_set (findall 0 (lower s)).

(** How many entries of [xs] occur in [t]. *)
Definition count_matches (t : string) (xs : list string) : nat :=
  List.length (filter (fun x => str_in x t = true) xs).

(** Descending order of the keys. *)
Definition key_ge {A} (x y : Q * A) : Prop := (fst y <= fst x)%Q.

(** The elements of a list whose key is [k]. *)
Definition with_key {A} (k : Q) (l : list (Q * A)) : list (Q * A) :=
  filter (fun x => Qeq_bool (fst x) k = true) l.

(** [a] comes before [b] in descending key order. *)
Definition key_desc {A} (key : A → option Q) (a b : A) : Prop :=
  ∃ fa fb, key a = Some fa ∧ key b = Some fb ∧ (fb <= fa)%Q.

(** The key of [a] equals [k]. *)
Definition has_key {A} (key : A → option Q) (k : Q) (a : A) : bool :=
  match key a with
  | Some f => Qeq_bool f k
  | None => false
  end.

(** Each pair holds an element with its key. *)
Definition keyed {A} (key : A → option Q) (ps : list (Q * A)) : Prop :=
  Forall (fun p => key (snd p) = Some (fst p)) ps.

(** The rows whose scoring target is a string. *)
Definition text_is_str (r : gmap string value) : Prop := ∃ s, row_text r = VStr s.

(** The weighted sum for the row [r], from its lexical overlap and entity
    boost on the scoring target. *)
Definition weighted_score (question tag : string) (entities : gmap string (list string))
    (r : gmap string value) (f : Q) : Prop :=
  ∃ lex ent,
    lexical_overlap_score question (row_text r) = Some lex ∧
    entity_match_boost (row_text r) entities = Some ent ∧
    f = (0.5 * lex + 0.3 * ent + 0.2 * proximity tag)%Q.

(** The row [o] is the row [r] scored with [f]: a copy of [r] with the two
    entries set. *)
Definition scored_copy (tag : string) (f : Q) (r o : gmap string value) : Prop :=
  o = <["_tag" := VStr tag]> (<["_score" := VFloat f]> r).

(** The rows [ds] are the objects that the references [rows] point to. *)
Definition points_to (h : list (gmap string value)) (rows : list nat)
    (ds : list (gmap string value)) : Prop :=
  Forall2 (fun r d => h !! r = Some d) rows ds.

(** The scores read through a list of references. *)
Definition scores_of (h : list (gmap string value)) (refs : list nat) : list (option Q) :=
  (fun x => d ← h !! x; score_key d) <$> refs.

(** The key of the [i]-th new object. *)
Definition index_key (news : list (gmap string value)) (i : nat) : option Q :=
  d ← news !! i; score_key d.

(** A text that is truthy and not a string. *)
Definition non_text (v : value) : Prop := truthy v = true ∧ ∀ s, v ≠ VStr s.

(** [s] starts with a letter. *)
Definition starts_letter (s : string) : bool :=
  match s with
  | EmptyString => false
  | String c _ => is_letter c
  end.

(** How many entries of [entities.algorithms] and [entities.diseases] occur
    in [t]. *)
Definition match_total (t : string) (entities : gmap string (list string)) : nat :=
  (count_matches t (entity_list entities "algorithms") +
   count_matches t (entity_list entities "diseases"))%nat.

(** Two rows, the second closer to the question "dry cough". *)
Definition two_rows : list (gmap string value) :=
  [ {[ "item" := VStr "fever" ]}; {[ "item" := VStr "dry cough" ]} ].

(** Scenario C of the specification, with a third row that ties with the
    first. *)
Definition scenario_rows : list (gmap string value) :=
  [ {[ "item" := VStr "cough" ]};
    {[ "item" := VStr "svm classification model" ]};
    {[ "item" := VStr "dry cough"; "rank" := VInt 3 ]} ].

Definition scenario_entities : gmap string (list string) :=
  {[ "algorithms" := ["svm"]; "diseases" := []; "sections" := [] ]}.

(** A row whose field "text" is present and empty. *)
Definition row_empty_text : gmap string value :=
  {[ "text" := VStr ""; "item" := VStr "cough" ]}.

(* ===================================================================== *)
(** * Properties                                                          *)
(* ===================================================================== *)

(** ** Normalization *)

Lemma is_upper_char_lower c : is_upper (char_lower c) = false.
Proof. destruct c as [[] [] [] [] [] [] [] []]; reflexivity. Qed.

Lemma no_upper_lower s : no_upper (lower s) = true.
Proof.
  induction s as [|c s IH]; simpl; [done|].
  by rewrite is_upper_char_lower, IH.
Qed.

Lemma no_upper_lstrip s : no_upper s = true → no_upper (lstrip s) = true.
Proof.
  induction s as [|c s IH]; simpl; [done|]. intros H.
  destruct (is_space c); [|done].
  apply andb_prop in H as [_ H]. by apply IH.
Qed.

Lemma no_upper_rstrip s : no_upper s = true → no_upper (rstrip s) = true.
Proof.
  induction s as [|c s IH]; simpl; [done|]. intros H.
  apply andb_prop in H as [Hc H]. specialize (IH H).
  destruct (rstrip s) as [|c' r].
  - destruct (is_space c); simpl; [done | by rewrite Hc].
  - simpl in *. by rewrite Hc, IH.
Qed.

Lemma no_upper_collapse_ws s : no_upper s = true → no_upper (collapse_ws s) = true.
Proof.
  induction s as [|c s IH]; [done|]. intros H.
  simpl in H. apply andb_prop in H as [Hc H]. specialize (IH H).
  simpl. destruct (is_space c).
  - destruct s as [|c' s]; [done|].
    destruct (is_space c'); [done|]. change (no_upper (String " " ?x)) with (no_upper x).
    done.
  - simpl. by rewrite Hc, IH.
Qed.

Lemma starts_space_lstrip s : starts_space (lstrip s) = false.
Proof.
  induction s as [|c s IH]; simpl; [done|].
  destruct (is_space c) eqn:Hc; [done|]. simpl. done.
Qed.

Lemma starts_space_rstrip s : starts_space s = false → starts_space (rstrip s) = false.
Proof.
  destruct s as [|c s]; simpl; [done|]. intros Hc.
  destruct (rstrip s); [by rewrite Hc | done].
Qed.

Lemma ends_space_rstrip s : ends_space (rstrip s) = false.
Proof.
  induction s as [|c s IH]; simpl; [done|].
  destruct (rstrip s) as [|c' r] eqn:Hr.
  - destruct (is_space c) eqn:Hc; simpl; done.
  - done.
Qed.

Lemma starts_space_collapse_ws s : starts_space (collapse_ws s) = starts_space s.
Proof.
  induction s as [|c s IH]; [done|]. simpl.
  destruct (is_space c) eqn:Hc; [|by simpl].
  destruct s as [|c' s]; [done|].
  destruct (is_space c') eqn:Hc'; [|done].
  rewrite IH. simpl. done.
Qed.

Lemma collapse_ws_cons c s : ∃ c' r, collapse_ws (String c s) = String c' r.
Proof.
  revert c. induction s as [|c1 s IH]; intros c; simpl.
  - destruct (is_space c); eauto.
  - destruct (is_space c); [|eauto].
    destruct (is_space c1) eqn:H1; [|eauto].
    destruct (IH c1) as (c' & r & Hr). simpl in Hr. rewrite H1 in Hr. eauto.
Qed.

Lemma ends_space_collapse_ws s : ends_space (collapse_ws s) = ends_space s.
Proof.
  induction s as [|c s IH]; [done|].
  destruct s as [|c1 s].
  - simpl. destruct (is_space c) eqn:Hc; simpl; [done | by rewrite Hc].
  - change (ends_space (String c (String c1 s))) with (ends_space (String c1 s)).
    rewrite <- IH.
    change (collapse_ws (String c (String c1 s))) with
      (if is_space c then
         if is_space c1 then collapse_ws (String c1 s)
         else String " " (collapse_ws (String c1 s))
       else String c (collapse_ws (String c1 s))).
    destruct (collapse_ws_cons c1 s) as (c' & r & ->).
    destruct (is_space c); [destruct (is_space c1)|]; done.
Qed.

Lemma single_spaced_collapse_ws s : single_spaced (collapse_ws s) = true.
Proof.
  induction s as [|c s IH]; [done|]. simpl.
  destruct (is_space c) eqn:Hc.
  - destruct s as [|c1 s]; [done|].
    destruct (is_space c1) eqn:H1; [done|].
    change (single_spaced (String " " ?x)) with
      (negb (starts_space x) && single_spaced x).
    by rewrite starts_space_collapse_ws, IH; simpl; rewrite H1.
  - simpl. by rewrite Hc, IH.
Qed.

Lemma normalize_normal_form text : normal_form (_normalize text).
Proof.
  unfold normal_form, _normalize, strip. repeat split.
  - apply no_upper_collapse_ws, no_upper_rstrip, no_upper_lstrip, no_upper_lower.
  - rewrite starts_space_collapse_ws. apply starts_space_rstrip, starts_space_lstrip.
  - rewrite ends_space_collapse_ws. apply ends_space_rstrip.
  - apply single_spaced_collapse_ws.
Qed.

(** ** Intent detection *)

Lemma first_hit_app q l1 l2 :
  first_hit q (l1 ++ l2) =
    match first_hit q l1 with Some i => Some i | None => first_hit q l2 end.
Proof.
  induction l1 as [|[i kw] l1 IH]; simpl; [done|].
  by destruct (str_in kw q).
Qed.

Lemma scan_keywords_first_hit q intent kws :
  scan_keywords q intent kws = first_hit q ((fun kw => (intent, kw)) <$> kws).
Proof.
  induction kws as [|kw kws IH]; simpl; [done|].
  by destruct (str_in kw q).
Qed.

Lemma scan_intents_first_hit q table :
  scan_intents q table = first_hit q (keywords_in_order table).
Proof.
  induction table as [|[intent kws] table IH]; [done|].
  unfold keywords_in_order in *. simpl.
  rewrite first_hit_app, <- scan_keywords_first_hit, IH. done.
Qed.

Lemma first_hit_none q l :
  Forall (fun p => str_in p.2 q = false) l → first_hit q l = None.
Proof.
  induction 1 as [|[i kw] l Hx _ IH]; simpl in *; [done|]. by rewrite Hx.
Qed.

Lemma first_hit_split q pre intent kw post :
  Forall (fun p => str_in p.2 q = false) pre →
  str_in kw q = true →
  first_hit q (pre ++ (intent, kw) :: post) = Some intent.
Proof.
  intros Hpre Hkw. rewrite first_hit_app, (first_hit_none _ _ Hpre).
  simpl. by rewrite Hkw.
Qed.

(** C2. Intent detection walks the keyword table in its order, pair by pair
    and keyword by keyword: the first keyword that occurs in the normalized
    question (lower-cased, trimmed, whitespace runs collapsed) gives the
    intent, and when no keyword of the table occurs the intent is
    "generic". *)
Theorem detect_intent_first_keyword_wins (question : string) :
  _normalize question = collapse_ws (strip (lower question)) ∧
  normal_form (_normalize question) ∧
  (∀ pre intent kw post,
      keywords_in_order INTENTS = pre ++ (intent, kw) :: post →
      Forall (fun p => str_in p.2 (_normalize question) = false) pre →
      str_in kw (_normalize question) = true →
      _detect_intent question = intent) ∧
  (Forall (fun p => str_in p.2 (_normalize question) = false) (keywords_in_order INTENTS) →
   _detect_intent question = "generic").
Proof.
  split; [done|]. split; [apply normalize_normal_form|].
  unfold _detect_intent. cbv zeta.
  rewrite scan_intents_first_hit. split.
  - intros pre intent kw post -> Hpre Hkw.
    by rewrite (first_hit_split _ _ _ _ _ Hpre Hkw).
  - intros Hall. by rewrite (first_hit_none _ _ Hall).
Qed.

(** A question about accuracy: the twenty keywords before "accuracy" do not
    occur in it; and a question in which no keyword occurs. *)
Lemma detect_intent_first_keyword_wins_witness :
  _detect_intent "What  ACCURACY did the random forest model achieve, as a result?" = "results" ∧
  _detect_intent "Who wrote the paper?" = "generic".
Proof.
  split.
  - apply (proj1 (proj2 (proj2 (detect_intent_first_keyword_wins _)))
             (take 20 (keywords_in_order INTENTS)) "results" "accuracy"
             (drop 21 (keywords_in_order INTENTS))).
    + reflexivity.
    + vm_compute. repeat constructor.
    + reflexivity.
  - apply (proj2 (proj2 (proj2 (detect_intent_first_keyword_wins _)))).
    vm_compute. repeat constructor.
Defined.

(** Scenarios A and B of the specification. *)
Example scenario_a :
  _normalize "  What are the SYMPTOMS of
     lung cancer? " = "what are the symptoms of lung cancer?" ∧
  _detect_intent "What are the symptoms of lung cancer?" = "symptoms" ∧
  _extract_entities "What are the symptoms of lung cancer?" =
    {[ "diseases" := ["lung cancer"]; "algorithms" := []; "sections" := [] ]} ∧
  tag <$> build_queries "symptoms" ∅ "What are the symptoms of lung cancer?" = ["Symptoms"].
Proof. repeat split; vm_compute; reflexivity. Qed.

Example scenario_b :
  _detect_intent "What accuracy did the random forest model achieve?" = "results" ∧
  _extract_entities "What accuracy did the random forest model achieve?" !! "algorithms" =
    Some ["rf"].
Proof. split; vm_compute; reflexivity. Qed.

(** ** Query specifications *)

Lemma eqb_false_of_not_elem (intent x : string) (l : list string) :
  intent ∉ l → x ∈ l → String.eqb intent x = false.
Proof.
  intros Hn Hx. apply String.eqb_neq. intros ->. by apply Hn.
Qed.

(** C3. [build_queries] never returns an empty list, and for an intent that
    is none of the seven specific ones it returns exactly one spec, tagged
    "Sections", whose params bind [q] to the question text as given. *)
Theorem build_queries_never_empty (intent : string)
    (entities : gmap string (list string)) (question_text : string) :
  build_queries intent entities question_text ≠ [] ∧
  (intent ∉ SPECIFIC_INTENTS →
   ∃ text, build_queries intent entities question_text =
             [QuerySpec "Sections" text {[ "q" := question_text ]}]).
Proof.
  split.
  - unfold build_queries, append.
    repeat match goal with
           | |- context [String.eqb ?a ?b] => destruct (String.eqb a b)
           end; discriminate.
  - intros Hn. unfold build_queries.
    rewrite !(eqb_false_of_not_elem intent _ SPECIFIC_INTENTS Hn)
      by (unfold SPECIFIC_INTENTS; set_solver).
    eexists. reflexivity.
Qed.

Lemma build_queries_never_empty_witness :
  ∃ text, build_queries "generic" ∅ "What  is Lung Cancer?" =
            [QuerySpec "Sections" text {[ "q" := "What  is Lung Cancer?" ]}].
Proof.
  apply (proj2 (build_queries_never_empty "generic" ∅ "What  is Lung Cancer?")).
  unfold SPECIFIC_INTENTS. vm_compute. intros H.
  repeat (apply elem_of_cons in H as [H|H]; [discriminate H|]).
  by apply elem_of_nil in H.
Defined.

(** C5. For intent "results" the builder returns exactly two specs, tagged
    "Results" and "BestModel" in this order, both with empty params. *)
Theorem build_queries_results (entities : gmap string (list string)) (question_text : string) :
  tag <$> build_queries "results" entities question_text = ["Results"; "BestModel"] ∧
  params <$> build_queries "results" entities question_text = [∅; ∅].
Proof. split; reflexivity. Qed.

(** ** The scoring target of a row *)

Lemma dict_get_absent (r : gmap string value) k :
  r !! k = None → truthy (dict_get r k) = false.
Proof. unfold dict_get. by intros ->. Qed.

(** C1 (as amended). The scoring target of a row is the value of the first
    of the fields "text", "item", "model" whose value is truthy, and the
    empty string when none is: a field that is absent, [None], the empty
    string, zero or [False] is passed over.  [score_items] scores the row
    on this value. *)
Theorem row_text_first_truthy (question tag : string) (r : gmap string value)
    (entities : gmap string (list string)) :
  row_text r =
    (if truthy (dict_get r "text") then dict_get r "text"
     else if truthy (dict_get r "item") then dict_get r "item"
     else if truthy (dict_get r "model") then dict_get r "model"
     else VStr "") ∧
  (∀ k, r !! k = None → truthy (dict_get r k) = false) ∧
  score_row question tag entities r =
    (lex ← lexical_overlap_score question (row_text r);
     ent ← entity_match_boost (row_text r) entities;
     Some (<["_tag" := VStr tag]>
             (<["_score" := VFloat (0.5 * lex + 0.3 * ent + 0.2 * proximity tag)%Q]> r))).
Proof.
  split; [|split].
  - unfold row_text, py_or.
    destruct (truthy (dict_get r "text")) eqn:Ht; simpl; rewrite ?Ht; [done|].
    destruct (truthy (dict_get r "item")) eqn:Hi; simpl; rewrite ?Hi; [done|].
    by destruct (truthy (dict_get r "model")) eqn:Hm; simpl; rewrite ?Hm.
  - intros k. apply dict_get_absent.
  - unfold score_row, final_score. cbv zeta.
    destruct (lexical_overlap_score question (row_text r)); [|done]. simpl.
    by destruct (entity_match_boost (row_text r) entities).
Qed.

Lemma row_text_first_truthy_witness :
  truthy (dict_get row_empty_text "model") = false ∧
  row_text row_empty_text = VStr "cough".
Proof.
  split.
  - apply (proj1 (proj2 (row_text_first_truthy "" "" row_empty_text ∅)) "model").
    reflexivity.
  - rewrite (proj1 (row_text_first_truthy "" "" row_empty_text ∅)). reflexivity.
Defined.

(** The row [{"text": "", "item": "cough"}] has the field "text", yet it is
    scored on "cough". *)
Lemma row_text_not_by_presence :
  row_empty_text !! "text" = Some (VStr "") ∧
  text_by_presence row_empty_text = VStr "" ∧
  row_text row_empty_text = VStr "cough" ∧
  lexical_overlap_score "cough" (row_text row_empty_text) = Some (1 # 1)%Q ∧
  lexical_overlap_score "cough" (text_by_presence row_empty_text) = Some 0%Q.
Proof. repeat split; vm_compute; reflexivity. Qed.

(** ** Tokenization *)

Lemma is_letter_tokchar c : is_letter c = true → is_tokchar c = true.
Proof. unfold is_tokchar. by intros ->. Qed.

Lemma append_cons c a b : String c a +:+ b = String c (a +:+ b).
Proof. reflexivity. Qed.

Lemma append_empty b : EmptyString +:+ b = b.
Proof. reflexivity. Qed.

Lemma take_drop_tokchars s : take_tokchars s +:+ drop_tokchars s = s.
Proof.
  induction s as [|c s IH]; simpl; [done|].
  destruct (is_tokchar c); [by rewrite append_cons, IH | done].
Qed.

Lemma all_tok_take s : all_tok (take_tokchars s) = true.
Proof.
  induction s as [|c s IH]; simpl; [done|].
  destruct (is_tokchar c) eqn:Hc; simpl; [by rewrite Hc | done].
Qed.

Lemma starts_tok_drop s : starts_tok (drop_tokchars s) = false.
Proof.
  induction s as [|c s IH]; simpl; [done|].
  destruct (is_tokchar c) eqn:Hc; simpl; done.
Qed.

Lemma length_drop_tokchars s : (String.length (drop_tokchars s) ≤ String.length s)%nat.
Proof.
  induction s as [|c s IH]; simpl; [done|].
  destruct (is_tokchar c); simpl; lia.
Qed.

Lemma take_tokchars_app r rest :
  all_tok r = true → starts_tok rest = false → take_tokchars (r +:+ rest) = r.
Proof.
  intros Hr Hrest. induction r as [|c r IH].
  - rewrite append_empty.
    destruct rest as [|c rest]; simpl in *; [done | by rewrite Hrest].
  - rewrite append_cons. simpl in *.
    apply andb_prop in Hr as [-> Hr]. by rewrite IH.
Qed.

Lemma length_drop_hyphens r : (String.length (drop_hyphens r) ≤ String.length r)%nat.
Proof.
  induction r as [|c r IH]; simpl; [done|].
  destruct (is_letter c); simpl; lia.
Qed.

(** The runs of a string that starts with a token character: the longest
    prefix of token characters, then the runs of what follows it. *)
Lemma runs_tokchar c s :
  is_tokchar c = true →
  runs (String c s) = String c (take_tokchars s) :: runs (drop_tokchars s).
Proof.
  revert c. induction s as [|c' s IH]; intros c Hc.
  - simpl. by rewrite Hc.
  - change (runs (String c (String c' s))) with
      (if is_tokchar c then
         if is_tokchar c' then
           match runs (String c' s) with
           | r :: rs => String c r :: rs
           | [] => [String c EmptyString]
           end
         else String c EmptyString :: runs (String c' s)
       else runs (String c' s)).
    rewrite Hc. simpl take_tokchars. simpl drop_tokchars.
    destruct (is_tokchar c') eqn:Hc'; [|done].
    by rewrite (IH c' Hc').
Qed.

Lemma runs_not_tokchar c s : is_tokchar c = false → runs (String c s) = runs s.
Proof. intros Hc. simpl. by rewrite Hc. Qed.

(** Passing over the characters of a match. *)
Lemma findall_skip r rest : findall (String.length r) (r +:+ rest) = findall 0 rest.
Proof.
  induction r as [|c r IH]; [by rewrite append_empty|].
  by rewrite append_cons.
Qed.

Lemma findall_not_letter c s : is_letter c = false → findall 0 (String c s) = findall 0 s.
Proof. intros Hc. simpl. by rewrite Hc. Qed.

(** The scan over one maximal run: the run without its leading hyphens is
    matched when at least three characters remain, and nothing else is. *)
Lemma findall_run r rest :
  all_tok r = true → starts_tok rest = false →
  findall 0 (r +:+ rest) = run_token r ++ findall 0 rest.
Proof.
  intros Hr Hrest. induction r as [|c r IH].
  - done.
  - simpl in Hr. apply andb_prop in Hr as [Hc Hr]. specialize (IH Hr).
    destruct (is_letter c) eqn:Hl.
    + change (findall 0 (String c r +:+ rest)) with
        (match match_at (String c (r +:+ rest)) with
         | Some m => m :: findall (String.length m - 1) (r +:+ rest)
         | None => findall 0 (r +:+ rest)
         end).
      unfold match_at. rewrite Hl. cbv zeta.
      rewrite (take_tokchars_app _ _ Hr Hrest).
      unfold run_token. simpl drop_hyphens. rewrite Hl.
      destruct (2 <=? String.length r)%nat eqn:Hlen.
      * apply Nat.leb_le in Hlen.
        rewrite filter_cons_True by (simpl; lia).
        replace (String.length (String c r) - 1)%nat with (String.length r)
          by (simpl; lia).
        by rewrite findall_skip.
      * apply Nat.leb_gt in Hlen.
        rewrite filter_cons_False by (simpl; lia).
        rewrite IH. unfold run_token.
        rewrite filter_cons_False; [done|].
        pose proof (length_drop_hyphens r). lia.
    + change (String c r +:+ rest) with (String c (r +:+ rest)).
      rewrite (findall_not_letter _ _ Hl), IH.
      unfold run_token. simpl drop_hyphens. by rewrite Hl.
Qed.

Lemma findall_runs_aux n : ∀ s,
  (String.length s ≤ n)%nat →
  findall 0 s = runs s ≫= run_token.
Proof.
  induction n as [|n IH]; intros s Hn.
  - destruct s; [done | simpl in Hn; lia].
  - destruct s as [|c s]; [done|]. simpl in Hn.
    destruct (is_tokchar c) eqn:Hc.
    + rewrite (runs_tokchar _ _ Hc), bind_cons.
      rewrite <- (IH (drop_tokchars s)) by (pose proof (length_drop_tokchars s); lia).
      rewrite <- (findall_run (String c (take_tokchars s)) (drop_tokchars s)).
      * by rewrite append_cons, take_drop_tokchars.
      * simpl. by rewrite Hc, all_tok_take.
      * apply starts_tok_drop.
    + rewrite (runs_not_tokchar _ _ Hc).
      rewrite findall_not_letter; [apply IH; lia|].
      destruct (is_letter c) eqn:Hl; [|done].
      by rewrite (is_letter_tokchar _ Hl) in Hc.
Qed.

Lemma findall_runs s : findall 0 s = runs s ≫= run_token.
Proof. by apply (findall_runs_aux (String.length s)). Qed.

Lemma bind_run_token (l : list string) :
  l ≫= run_token = filter (fun t => (3 ≤ String.length t)%nat) (drop_hyphens <$> l).
Proof.
  induction l as [|r l IH]; [done|].
  rewrite bind_cons, fmap_cons, IH. unfold run_token.
  destruct (decide (3 ≤ String.length (drop_hyphens r))%nat) as [H|H].
  - by rewrite !filter_cons_True.
  - by rewrite !filter_cons_False.
Qed.

(** In "-abc" the run of letters and hyphens is "-abc"; the token is
    "abc".  In "--ab" the run has four characters and there is no token. *)
Lemma tokenize_not_maximal_runs :
  tokens_by_runs "-abc" = ["-abc"] ∧ _tokenize (VStr "-abc") = Some ["abc"] ∧
  tokens_by_runs "--ab" = ["--ab"] ∧ _tokenize (VStr "--ab") = Some [].
Proof. repeat split; vm_compute; reflexivity. Qed.

(** ** Lexical overlap *)

Lemma tokenize_str s : _tokenize (VStr s) = Some (findall 0 (lower s)).
Proof. by destruct s. Qed.

Lemma lexical_overlap_str q t :
  lexical_overlap_score q (VStr t) =
    Some (if bool_decide (token_set q = ∅) || bool_decide (token_set t = ∅) then 0%Q
          else (inject_Z (Z.of_nat (size (token_set q ∩ token_set t))) /
                inject_Z (Z.max 1 (Z.of_nat (size (token_set q)))))%Q).
Proof.
  unfold lexical_overlap_score. rewrite !tokenize_str. simpl.
  fold (token_set q) (token_set t).
  by destruct (bool_decide (token_set q = ∅) || bool_decide (token_set t = ∅)).
Qed.

(** C7 (as amended). Tokenization lower-cases the text and yields, for each
    maximal run of letters and hyphens, left to right, the run without its
    leading hyphens, provided at least three characters remain: a token
    starts with a letter.  The question and the candidate text are
    tokenized by the same function. *)
Theorem tokenize_runs_from_first_letter (s t : string) :
  _tokenize (VStr s) =
    Some (filter (fun r => (3 ≤ String.length r)%nat) (drop_hyphens <$> runs (lower s))) ∧
  lexical_overlap_score s (VStr t) =
    (q_list ← _tokenize (VStr s);
     t_list ← _tokenize (VStr t);
     let q_tokens : gset string := list_to_set q_list in
     let t_tokens : gset string := list_to_set t_list in
     Some (if bool_decide (q_tokens = ∅) || bool_decide (t_tokens = ∅) then 0%Q
           else (inject_Z (Z.of_nat (size (q_tokens ∩ t_tokens))) /
                 inject_Z (Z.max 1 (Z.of_nat (size q_tokens))))%Q)).
Proof.
  split.
  - unfold _tokenize, or_empty_lower, py_or. simpl.
    rewrite <- bind_run_token, <- findall_runs.
    by destruct s.
  - rewrite lexical_overlap_str, !tokenize_str. done.
Qed.

Lemma overlap_ratio_bounds (a b : gset string) :
  (0 <= inject_Z (Z.of_nat (size (a ∩ b))) / inject_Z (Z.max 1 (Z.of_nat (size a))) <= 1)%Q.
Proof.
  assert (size (a ∩ b) ≤ size a)%nat as Hle
    by (apply subseteq_size, intersection_subseteq_l).
  set (n := Z.of_nat (size (a ∩ b))). set (d := Z.max 1 (Z.of_nat (size a))).
  assert (0 <= n)%Z as Hn by lia. assert (1 <= d)%Z as Hd by lia.
  assert (n <= d)%Z as Hnd by lia.
  assert (0 < inject_Z d)%Q as Hd' by (unfold Qlt; simpl; lia).
  split.
  - apply Qle_shift_div_l; [done|]. unfold Qle; simpl. lia.
  - apply Qle_shift_div_r; [done|]. unfold Qle; simpl. lia.
Qed.

Lemma lexical_overlap_bounds question text lex :
  lexical_overlap_score question text = Some lex → (0 <= lex <= 1)%Q.
Proof.
  unfold lexical_overlap_score. intros H.
  destruct (_tokenize (VStr question)) as [ql|]; [|done].
  destruct (_tokenize text) as [tl|]; [|done]. simpl in H.
  destruct (bool_decide _ || bool_decide _); simplify_eq.
  - lra.
  - apply overlap_ratio_bounds.
Qed.

(** C9. On strings [lexical_overlap_score] always returns: 0 when either token
    set is empty, tested before any division, and otherwise the size of the
    intersection of the token sets over [max(1, |tokens(q)|)], a divisor
    that is never zero. *)
Theorem lexical_overlap_total_guarded (q t : string) :
  (∃ x, lexical_overlap_score q (VStr t) = Some x) ∧
  (token_set q = ∅ ∨ token_set t = ∅ → lexical_overlap_score q (VStr t) = Some 0%Q) ∧
  (token_set q ≠ ∅ → token_set t ≠ ∅ →
   lexical_overlap_score q (VStr t) =
     Some (inject_Z (Z.of_nat (size (token_set q ∩ token_set t))) /
           inject_Z (Z.max 1 (Z.of_nat (size (token_set q)))))%Q) ∧
  ¬ (inject_Z (Z.max 1 (Z.of_nat (size (token_set q)))) == 0)%Q ∧
  lexical_overlap_score q (VStr "") = Some 0%Q ∧
  lexical_overlap_score "" (VStr t) = Some 0%Q.
Proof.
  assert (token_set "" = ∅) as He by done.
  repeat split.
  - rewrite lexical_overlap_str. eauto.
  - rewrite lexical_overlap_str. intros [->| ->].
    + by rewrite bool_decide_eq_true_2.
    + rewrite (bool_decide_eq_true_2 (∅ = ∅)) by done. by rewrite orb_true_r.
  - intros Hq Ht. rewrite lexical_overlap_str.
    by rewrite !bool_decide_eq_false_2.
  - unfold Qeq. simpl. lia.
  - rewrite lexical_overlap_str, He.
    rewrite (bool_decide_eq_true_2 (∅ = ∅)) by done. by rewrite orb_true_r.
  - rewrite lexical_overlap_str, He. by rewrite bool_decide_eq_true_2.
Qed.

Lemma lexical_overlap_total_guarded_witness :
  lexical_overlap_score "What are the symptoms?" (VStr "of it") = Some 0%Q ∧
  lexical_overlap_score "lung cancer symptoms" (VStr "symptoms of cancer") =
    Some (inject_Z (Z.of_nat (size (token_set "lung cancer symptoms" ∩ token_set "symptoms of cancer"))) /
          inject_Z (Z.max 1 (Z.of_nat (size (token_set "lung cancer symptoms")))))%Q.
Proof.
  split.
  - apply (proj1 (proj2 (lexical_overlap_total_guarded "What are the symptoms?" "of it"))).
    right. vm_compute. reflexivity.
  - apply (proj1 (proj2 (proj2 (lexical_overlap_total_guarded
             "lung cancer symptoms" "symptoms of cancer")))).
    + vm_compute. discriminate.
    + vm_compute. discriminate.
Defined.

(** ** Entity boost *)

Lemma add_matches_count t xs score :
  (add_matches t xs score == score + 0.2 * inject_Z (Z.of_nat (count_matches t xs)))%Q.
Proof.
  revert score. unfold add_matches, count_matches.
  induction xs as [|x xs IH]; intros score; simpl fold_left.
  - change (inject_Z _) with 0%Q. lra.
  - destruct (str_in x t) eqn:Hx.
    + rewrite filter_cons_True by done. rewrite IH.
      change (List.length (x :: filter (λ x0 : string, str_in x0 t = true) xs))
        with (S (List.length (filter (λ x0 : string, str_in x0 t = true) xs))).
      rewrite Nat2Z.inj_succ. unfold Z.succ. rewrite inject_Z_plus.
      change (inject_Z 1) with 1%Q.
      generalize (inject_Z (Z.of_nat (List.length (filter (λ x0 : string, str_in x0 t = true) xs)))).
      intros k. lra.
    + rewrite filter_cons_False by (by rewrite Hx). apply IH.
Qed.

Lemma inject_nat_nonneg n : (0 <= inject_Z (Z.of_nat n))%Q.
Proof. unfold Qle. simpl. lia. Qed.

Lemma add_matches_nonneg t xs score : (0 <= score → 0 <= add_matches t xs score)%Q.
Proof.
  intros H. rewrite add_matches_count.
  pose proof (inject_nat_nonneg (count_matches t xs)) as Hk.
  revert Hk. generalize (inject_Z (Z.of_nat (count_matches t xs))). intros k Hk.
  nra.
Qed.

Lemma entity_match_boost_bounds text entities ent :
  entity_match_boost text entities = Some ent → (0 <= ent <= 0.6)%Q.
Proof.
  unfold entity_match_boost. cbv zeta. intros H.
  destruct (or_empty_lower text) as [t|]; [|done]. simpl in H. simplify_eq.
  split.
  - apply Q.min_glb; [|lra].
    apply add_matches_nonneg, add_matches_nonneg. lra.
  - apply Q.le_min_r.
Qed.

(** C8. On a string, [entity_match_boost] adds 0.2 for each entry of
    [entities.algorithms] and for each entry of [entities.diseases] that
    occurs in the lower-cased text, and returns the sum capped at 0.6: the
    result never exceeds 0.6, however many entries match. *)
Theorem entity_match_boost_capped (s : string) (entities : gmap string (list string)) :
  ∃ b, entity_match_boost (VStr s) entities = Some b ∧
       (b == Qmin (0.2 * inject_Z (Z.of_nat
                     (count_matches (lower s) (entity_list entities "algorithms") +
                      count_matches (lower s) (entity_list entities "diseases")))) 0.6)%Q ∧
       (0 <= b <= 0.6)%Q.
Proof.
  assert (or_empty_lower (VStr s) = Some (lower s)) as Hl by (by destruct s).
  unfold entity_match_boost. cbv zeta. rewrite Hl. simpl.
  eexists. split; [done|]. split.
  - set (a := add_matches _ _ (add_matches _ _ _)).
    assert (a == 0.2 * inject_Z (Z.of_nat
                     (count_matches (lower s) (entity_list entities "algorithms") +
                      count_matches (lower s) (entity_list entities "diseases"))))%Q as Ha.
    { unfold a. rewrite !add_matches_count, Nat2Z.inj_add, inject_Z_plus.
      generalize (inject_Z (Z.of_nat (count_matches (lower s) (entity_list entities "algorithms")))).
      generalize (inject_Z (Z.of_nat (count_matches (lower s) (entity_list entities "diseases")))).
      intros k1 k2. lra. }
    destruct (Q.min_spec a 0.6) as [[? ->]|[? ->]];
      destruct (Q.min_spec (0.2 * inject_Z (Z.of_nat
                     (count_matches (lower s) (entity_list entities "algorithms") +
                      count_matches (lower s) (entity_list entities "diseases")))) 0.6)
        as [[? ->]|[? ->]]; lra.
  - apply (entity_match_boost_bounds (VStr s) entities).
    unfold entity_match_boost. cbv zeta. by rewrite Hl.
Qed.

(** Five entries match; the boost is the cap. *)
Example entity_match_boost_five_matches :
  entity_match_boost (VStr "SVM, ANN and RF against MLR for lung cancer")
    {[ "algorithms" := ["svm"; "ann"; "rf"; "mlr"]; "diseases" := ["lung cancer"] ]}
  = Some 0.6%Q.
Proof. vm_compute. reflexivity. Qed.

(** ** The stable descending sort *)

Section sort_desc.
Context {A : Type}.
Implicit Types (x y : Q * A) (l : list (Q * A)).

Lemma insert_desc_perm x l : insert_desc x l ≡ₚ x :: l.
Proof.
  induction l as [|y l IH]; simpl; [done|].
  destruct (Qle_bool (fst y) (fst x)); [done|].
  by rewrite IH, Permutation_swap.
Qed.

Lemma sort_desc_perm l : sort_desc l ≡ₚ l.
Proof.
  induction l as [|x l IH]; simpl; [done|].
  by rewrite insert_desc_perm, IH.
Qed.

Lemma insert_desc_sorted x l :
  StronglySorted key_ge l → StronglySorted key_ge (insert_desc x l).
Proof.
  induction 1 as [|y l Hl IH Hy]; simpl.
  - repeat constructor.
  - destruct (Qle_bool (fst y) (fst x)) eqn:Hle.
    + apply Qle_bool_iff in Hle.
      constructor; [by constructor|].
      constructor; [done|].
      eapply Forall_impl; [exact Hy|]. unfold key_ge. intros z Hz. lra.
    + constructor; [done|].
      rewrite insert_desc_perm. constructor; [|done].
      unfold key_ge.
      destruct (Qlt_le_dec (fst y) (fst x)) as [Hlt|Hge]; [|done].
      apply Qlt_le_weak, Qle_bool_iff in Hlt. congruence.
Qed.

Lemma sort_desc_sorted l : StronglySorted key_ge (sort_desc l).
Proof.
  induction l as [|x l IH]; simpl; [constructor|].
  by apply insert_desc_sorted.
Qed.

(** An insertion only passes elements of strictly greater key: the elements
    of one key keep their order. *)
Lemma insert_desc_with_key k x l :
  with_key k (insert_desc x l) = with_key k (x :: l).
Proof.
  unfold with_key. induction l as [|y l IH]; simpl; [done|].
  destruct (Qle_bool (fst y) (fst x)) eqn:Hle; [done|].
  assert (¬ (fst y <= fst x)%Q) as Hnle
    by (intros H; apply Qle_bool_iff in H; congruence).
  destruct (Qeq_bool (fst x) k) eqn:Hx.
  - assert (Qeq_bool (fst y) k = false) as Hy.
    { apply not_true_is_false. intros Hy.
      apply Qeq_bool_iff in Hx, Hy. apply Hnle. rewrite Hx, Hy. apply Qle_refl. }
    rewrite (filter_cons_False _ y) by (by rewrite Hy).
    rewrite IH, (filter_cons_True _ x) by done.
    rewrite (filter_cons_True _ x) by done.
    by rewrite (filter_cons_False _ y) by (by rewrite Hy).
  - rewrite (filter_cons_False _ x (y :: l)) by (by rewrite Hx).
    rewrite (filter_cons_False _ x) in IH by (by rewrite Hx).
    destruct (Qeq_bool (fst y) k) eqn:Hy.
    + by rewrite !(filter_cons_True _ y), IH by done.
    + by rewrite !(filter_cons_False _ y), IH by (by rewrite Hy).
Qed.

Lemma sort_desc_with_key k l : with_key k (sort_desc l) = with_key k l.
Proof.
  induction l as [|x l IH]; [done|].
  change (sort_desc (x :: l)) with (insert_desc x (sort_desc l)).
  rewrite insert_desc_with_key. unfold with_key in *.
  destruct (Qeq_bool (fst x) k) eqn:Hx.
  - by rewrite !(filter_cons_True _ x), IH by done.
  - by rewrite !(filter_cons_False _ x), IH by (by rewrite Hx).
Qed.

End sort_desc.

Section list_sort_reverse.
Context {A : Type} (key : A → option Q).
Implicit Types (a b : A) (l out : list A) (ps : list (Q * A)).

Lemma keyed_zip l keys : mapM key l = Some keys → keyed key (zip keys l) ∧ (zip keys l).*2 = l.
Proof.
  intros H. apply mapM_Some in H. split.
  - unfold keyed. induction H; simpl; constructor; done.
  - apply snd_zip. by rewrite (Forall2_length _ _ _ H).
Qed.

Lemma keyed_sorted ps :
  keyed key ps → StronglySorted key_ge ps → StronglySorted (key_desc key) (ps.*2).
Proof.
  intros Hk Hs. induction Hs as [|p ps Hs IH Hp]; simpl; [constructor|].
  apply Forall_cons in Hk as [Hkp Hk].
  constructor; [by apply IH|].
  apply Forall_fmap. unfold keyed in Hk.
  eapply Forall_impl; [exact (proj2 (Forall_and _ _) (conj Hp Hk))|].
  intros q [Hq1 Hq2]. simpl. exists (fst p), (fst q). done.
Qed.

Lemma keyed_has_key k ps :
  keyed key ps → filter (fun a => has_key key k a = true) (ps.*2) = (with_key k ps).*2.
Proof.
  unfold with_key. induction 1 as [|p ps Hp _ IH]; [done|].
  rewrite fmap_cons.
  assert (has_key key k (snd p) = Qeq_bool (fst p) k) as Hpk
    by (unfold has_key; by rewrite Hp).
  destruct (Qeq_bool (fst p) k) eqn:Hq.
  - by rewrite !filter_cons_True, fmap_cons, IH by done.
  - by rewrite !filter_cons_False, IH by congruence.
Qed.

(** What [list.sort(key=key, reverse=True)] returns: a permutation in
    descending key order in which the elements of equal key keep their
    order. *)
Lemma list_sort_reverse_spec l out :
  list_sort_reverse key l = Some out →
  out ≡ₚ l ∧ StronglySorted (key_desc key) out ∧
  ∀ k, filter (fun a => has_key key k a = true) out = filter (fun a => has_key key k a = true) l.
Proof.
  unfold list_sort_reverse. intros H.
  destruct (mapM key l) as [keys|] eqn:Hkeys; [|done]. simpl in H. simplify_eq.
  destruct (keyed_zip _ _ Hkeys) as [Hk Hl].
  assert (keyed key (sort_desc (zip keys l))) as Hk'
    by (unfold keyed; by rewrite sort_desc_perm).
  split; [|split].
  - rewrite <- Hl at 2. by rewrite sort_desc_perm.
  - apply keyed_sorted; [done | apply sort_desc_sorted].
  - intros k. rewrite <- Hl at 2.
    by rewrite !keyed_has_key, sort_desc_with_key.
Qed.

Lemma list_sort_reverse_total l :
  Forall (fun a => is_Some (key a)) l → is_Some (list_sort_reverse key l).
Proof.
  intros H. unfold list_sort_reverse.
  destruct (mapM_is_Some_2 key l) as [keys ->]; [|by eexists].
  eapply Forall_impl; [exact H|]. done.
Qed.

End list_sort_reverse.

(** ** Scoring *)

Lemma proximity_bounds tag : (0 <= proximity tag <= 0.2)%Q.
Proof. unfold proximity. destruct (bool_decide _); lra. Qed.

Lemma final_score_weighted question tag r entities f :
  final_score question tag r entities = Some f ↔ weighted_score question tag entities r f.
Proof.
  unfold final_score, weighted_score. cbv zeta. split.
  - intros H.
    destruct (lexical_overlap_score question (row_text r)) as [lex|]; [|done].
    destruct (entity_match_boost (row_text r) entities) as [ent|]; [|done].
    simpl in H. simplify_eq. by exists lex, ent.
  - intros (lex & ent & -> & -> & ->). done.
Qed.

Lemma weighted_score_bounds question tag entities r f :
  weighted_score question tag entities r f → (0 <= f <= 1)%Q.
Proof.
  intros (lex & ent & Hlex & Hent & ->).
  apply lexical_overlap_bounds in Hlex. apply entity_match_boost_bounds in Hent.
  pose proof (proximity_bounds tag). lra.
Qed.

Lemma or_empty_lower_str s : or_empty_lower (VStr s) = Some (lower s).
Proof. by destruct s. Qed.

Lemma final_score_total question tag r entities :
  text_is_str r → is_Some (final_score question tag r entities).
Proof.
  intros [s Hs]. unfold final_score, entity_match_boost. cbv zeta.
  rewrite Hs, lexical_overlap_str, or_empty_lower_str. by eexists.
Qed.

Lemma score_row_Some question tag entities r o :
  score_row question tag entities r = Some o ↔
  ∃ f, final_score question tag r entities = Some f ∧ scored_copy tag f r o.
Proof.
  unfold score_row, scored_copy. cbv zeta. split.
  - intros H. destruct (final_score question tag r entities) as [f|]; [|done].
    simpl in H. simplify_eq. by exists f.
  - intros (f & -> & ->). done.
Qed.

Lemma score_row_total question tag entities r :
  text_is_str r → is_Some (score_row question tag entities r).
Proof.
  intros H. destruct (final_score_total question tag r entities H) as [f Hf].
  exists (<["_tag" := VStr tag]> (<["_score" := VFloat f]> r)).
  apply score_row_Some. by exists f.
Qed.

Lemma scored_copy_lookups tag f r o :
  scored_copy tag f r o →
  o !! "_score" = Some (VFloat f) ∧ o !! "_tag" = Some (VStr tag) ∧
  ∀ k, k ≠ "_score" → k ≠ "_tag" → o !! k = r !! k.
Proof.
  intros ->. repeat split.
  - by rewrite lookup_insert_ne, lookup_insert_eq.
  - by rewrite lookup_insert_eq.
  - intros k H1 H2. by rewrite !lookup_insert_ne.
Qed.

Lemma scored_copy_key tag f r o : scored_copy tag f r o → score_key o = Some f.
Proof.
  intros H. apply scored_copy_lookups in H as (H & _). unfold score_key. by rewrite H.
Qed.

Lemma score_row_key question tag entities r o :
  score_row question tag entities r = Some o → is_Some (score_key o).
Proof.
  intros H. apply score_row_Some in H as (f & _ & H).
  exists f. by eapply scored_copy_key.
Qed.

Lemma scored_rows_keys question tag entities rows scored :
  mapM (score_row question tag entities) rows = Some scored →
  Forall (fun o => is_Some (score_key o)) scored.
Proof.
  intros H. apply mapM_Some in H.
  induction H as [|r o rows scored Hr _ IH]; constructor; [|done].
  by eapply score_row_key.
Qed.

Lemma scored_rows_weighted question tag rows entities out :
  score_items question tag rows entities = Some out →
  Forall (fun o => ∃ r f, r ∈ rows ∧ weighted_score question tag entities r f ∧
                          scored_copy tag f r o) out.
Proof.
  unfold score_items. intros H.
  destruct (mapM (score_row question tag entities) rows) as [scored|] eqn:Hs; [|done].
  simpl in H. apply list_sort_reverse_spec in H as (Hperm & _ & _).
  rewrite Hperm. clear Hperm. apply mapM_Some in Hs.
  induction Hs as [|r o rows scored Hr _ IH]; constructor.
  - apply score_row_Some in Hr as (f & Hf & Ho). exists r, f.
    split; [apply list_elem_of_here|]. by apply final_score_weighted in Hf.
  - eapply Forall_impl; [exact IH|]. intros o' (r' & f & Hin & Hw & Hc).
    exists r', f. split; [by apply list_elem_of_further | done].
Qed.

(** C4. Every row scored by [score_items] carries as [_score] the value
    0.5 * lexical overlap + 0.3 * entity boost + 0.2 * proximity boost of its
    input row, where the proximity boost is 0.2 for a tag of the domain-tag
    set and 0 otherwise; this value lies between 0 and 1.  The output holds,
    up to order, one row per input row, and each is its input row with the
    score computed from that very row. *)
Theorem score_formula_unit_interval (question tag : string)
    (rows : list (gmap string value)) (entities : gmap string (list string))
    (out : list (gmap string value)) :
  score_items question tag rows entities = Some out →
  (tag ∈ DOMAIN_TAGS → proximity tag = 0.2%Q) ∧
  (tag ∉ DOMAIN_TAGS → proximity tag = 0%Q) ∧
  Forall (fun o =>
            ∃ r f, r ∈ rows ∧ weighted_score question tag entities r f ∧
                   scored_copy tag f r o ∧
                   o !! "_score" = Some (VFloat f) ∧ (0 <= f <= 1)%Q) out ∧
  ∃ scored,
    out ≡ₚ scored ∧
    Forall2 (fun r o =>
               ∃ f, weighted_score question tag entities r f ∧
                    scored_copy tag f r o ∧
                    o !! "_score" = Some (VFloat f) ∧ (0 <= f <= 1)%Q)
            rows scored.
Proof.
  intros H. pose proof (scored_rows_weighted _ _ _ _ _ H) as Hout.
  unfold score_items in H.
  destruct (mapM (score_row question tag entities) rows) as [scored|] eqn:Hs; [|done].
  simpl in H. apply list_sort_reverse_spec in H as (Hperm & _ & _).
  split; [|split; [|split]].
  - intros Ht. unfold proximity. by rewrite bool_decide_eq_true_2.
  - intros Ht. unfold proximity. by rewrite bool_decide_eq_false_2.
  - eapply Forall_impl; [exact Hout|].
    intros o (r & f & Hin & Hw & Hc). exists r, f.
    split; [done|]. split; [done|]. split; [done|]. split.
    + by apply scored_copy_lookups in Hc as (? & _).
    + by eapply weighted_score_bounds.
  - exists scored. split; [done|].
    apply mapM_Some in Hs. eapply Forall2_impl; [exact Hs|].
    intros r o Ho. apply score_row_Some in Ho as (f & Hf & Ho).
    apply final_score_weighted in Hf. exists f.
    split; [done|]. split; [done|]. split.
    + by apply scored_copy_lookups in Ho as (? & _).
    + by eapply weighted_score_bounds.
Qed.

Lemma score_formula_unit_interval_witness :
  ∃ out,
    score_items "does svm help with cough" "Symptoms" scenario_rows scenario_entities = Some out ∧
    Forall (fun o =>
              ∃ r f, r ∈ scenario_rows ∧
                     weighted_score "does svm help with cough" "Symptoms" scenario_entities r f ∧
                     scored_copy "Symptoms" f r o ∧
                     o !! "_score" = Some (VFloat f) ∧ (0 <= f <= 1)%Q) out ∧
    ∃ scored,
      out ≡ₚ scored ∧
      Forall2 (fun r o =>
                 ∃ f, weighted_score "does svm help with cough" "Symptoms" scenario_entities r f ∧
                      scored_copy "Symptoms" f r o ∧
                      o !! "_score" = Some (VFloat f) ∧ (0 <= f <= 1)%Q)
              scenario_rows scored.
Proof.
  assert (∃ out, score_items "does svm help with cough" "Symptoms" scenario_rows
                   scenario_entities = Some out) as [out Hout]
    by (eexists; vm_compute; reflexivity).
  exists out. split; [exact Hout|].
  exact (proj2 (proj2 (score_formula_unit_interval _ _ _ _ _ Hout))).
Defined.

(** C6. [score_items] returns the scored rows in descending order of
    [_score], and the sort is stable: the rows of any one score are in the
    output in the order in which their input rows were given. *)
Theorem score_items_sorted_stable (question tag : string)
    (rows : list (gmap string value)) (entities : gmap string (list string))
    (scored : list (gmap string value)) :
  mapM (score_row question tag entities) rows = Some scored →
  ∃ out,
    score_items question tag rows entities = Some out ∧
    out ≡ₚ scored ∧
    StronglySorted (key_desc score_key) out ∧
    ∀ k, filter (fun o => has_key score_key k o = true) out =
         filter (fun o => has_key score_key k o = true) scored.
Proof.
  intros Hs. unfold score_items. rewrite Hs. simpl.
  destruct (list_sort_reverse_total score_key scored) as [out Hout].
  { by eapply scored_rows_keys. }
  exists out. split; [done|]. by apply list_sort_reverse_spec.
Qed.

Lemma score_items_sorted_stable_witness :
  ∃ scored out,
    mapM (score_row "does svm help with cough" "Symptoms" scenario_entities) scenario_rows
      = Some scored ∧
    score_items "does svm help with cough" "Symptoms" scenario_rows scenario_entities = Some out ∧
    StronglySorted (key_desc score_key) out ∧
    ∀ k, filter (fun o => has_key score_key k o = true) out =
         filter (fun o => has_key score_key k o = true) scored.
Proof.
  assert (∃ scored,
            mapM (score_row "does svm help with cough" "Symptoms" scenario_entities)
              scenario_rows = Some scored) as [scored Hscored]
    by (eexists; vm_compute; reflexivity).
  destruct (score_items_sorted_stable "does svm help with cough" "Symptoms"
              scenario_rows scenario_entities scored Hscored) as (out & Ho & _ & Hs & Hk).
  exists scored, out. exact (conj Hscored (conj Ho (conj Hs Hk))).
Defined.

(** In the scenario the row that names the algorithm comes first, and the
    two rows of equal score follow in input order. *)
Example scenario_order :
  (fun out : list (gmap string value) =>
     (fun o : gmap string value => o !! "item") <$> out) <$>
    score_items "does svm help with cough" "Symptoms" scenario_rows scenario_entities =
  Some [Some (VStr "svm classification model"); Some (VStr "cough"); Some (VStr "dry cough")].
Proof. vm_compute. reflexivity. Qed.

(** ** The object store *)

Lemma setitem_new h d k v :
  setitem (List.length h) k v (h ++ [d]) = Some (h ++ [<[k := v]> d]).
Proof.
  unfold setitem. rewrite lookup_app_r, Nat.sub_diag by lia. simpl.
  rewrite insert_app_r_alt, Nat.sub_diag by lia. done.
Qed.

Lemma points_to_app h news rows ds : points_to h rows ds → points_to (h ++ news) rows ds.
Proof.
  unfold points_to. intros H. eapply Forall2_impl; [exact H|].
  intros r d Hr. by apply lookup_app_l_Some.
Qed.

(** The loop appends one new object per row, in order, and leaves every
    object of the store as it was. *)
Lemma score_loop_spec question tag entities rows : ∀ scored h ds,
  points_to h rows ds →
  score_loop question tag entities rows scored h =
    (news ← mapM (score_row question tag entities) ds;
     Some (scored ++ seq (List.length h) (List.length rows), h ++ news)).
Proof.
  induction rows as [|r rows IH]; intros scored h ds Hp.
  - apply Forall2_nil_inv_l in Hp as ->. simpl. by rewrite !app_nil_r.
  - apply Forall2_cons_inv_l in Hp as (d & ds' & Hr & Hp & ->).
    simpl score_loop. rewrite Hr. simpl.
    change (mapM (score_row question tag entities) (d :: ds')) with
      (o ← score_row question tag entities d;
       k ← mapM (score_row question tag entities) ds'; mret (o :: k)).
    unfold score_row at 2. cbv zeta.
    destruct (final_score question tag d entities) as [f|]; [|done]. simpl.
    rewrite setitem_new. simpl. rewrite setitem_new. simpl.
    rewrite (IH _ _ ds') by (by apply points_to_app).
    destruct (mapM (score_row question tag entities) ds') as [news|]; [|done]. simpl.
    unfold append. rewrite length_app. simpl.
    rewrite <- !app_assoc. simpl.
    by replace (List.length h + 1)%nat with (S (List.length h)) by lia.
Qed.

Section sort_maps.
Context {A B : Type}.

Lemma mapM_agree {C} (f g : A → option C) (l : list A) :
  Forall (fun a => f a = g a) l → mapM f l = mapM g l.
Proof.
  induction 1 as [|a l Ha _ IH]; [done|].
  change (mapM f (a :: l)) with (x ← f a; k ← mapM f l; mret (x :: k)).
  change (mapM g (a :: l)) with (x ← g a; k ← mapM g l; mret (x :: k)).
  by rewrite Ha, IH.
Qed.

Lemma mapM_fmap_compose {C} (f : A → option C) (g : B → A) (l : list B) :
  mapM f (g <$> l) = mapM (f ∘ g) l.
Proof.
  induction l as [|b l IH]; [done|].
  rewrite fmap_cons.
  change (mapM f (g b :: (g <$> l))) with (x ← f (g b); k ← mapM f (g <$> l); mret (x :: k)).
  change (mapM (f ∘ g) (b :: l)) with (x ← f (g b); k ← mapM (f ∘ g) l; mret (x :: k)).
  by rewrite IH.
Qed.

Lemma list_sort_reverse_agree (k1 k2 : A → option Q) (l : list A) :
  Forall (fun a => k1 a = k2 a) l → list_sort_reverse k1 l = list_sort_reverse k2 l.
Proof. intros H. unfold list_sort_reverse. by rewrite (mapM_agree _ _ _ H). Qed.

Lemma insert_desc_fmap (g : B → A) (x : Q * B) (l : list (Q * B)) :
  insert_desc (prod_map id g x) (prod_map id g <$> l) = prod_map id g <$> insert_desc x l.
Proof.
  induction l as [|y l IH]; [done|].
  rewrite fmap_cons. simpl.
  destruct (Qle_bool (fst y) (fst x)); [done|].
  by rewrite fmap_cons, <- IH.
Qed.

Lemma sort_desc_fmap (g : B → A) (l : list (Q * B)) :
  sort_desc (prod_map id g <$> l) = prod_map id g <$> sort_desc l.
Proof.
  induction l as [|x l IH]; [done|].
  rewrite fmap_cons. unfold sort_desc in *. simpl.
  by rewrite IH, insert_desc_fmap.
Qed.

Lemma zip_fmap_snd (g : B → A) (keys : list Q) (l : list B) :
  zip keys (g <$> l) = prod_map id g <$> zip keys l.
Proof.
  revert keys. induction l as [|b l IH]; intros [|k keys]; try done.
  simpl. by rewrite <- IH.
Qed.

(** Sorting the images of a list is sorting the list by the key of the
    image. *)
Lemma list_sort_reverse_fmap (g : B → A) (key : A → option Q) (l : list B) :
  list_sort_reverse key (g <$> l) =
    (fun s : list B => g <$> s) <$> list_sort_reverse (key ∘ g) l.
Proof.
  unfold list_sort_reverse. rewrite mapM_fmap_compose.
  destruct (mapM (key ∘ g) l) as [keys|]; [|done]. simpl.
  rewrite zip_fmap_snd, sort_desc_fmap. f_equal.
  rewrite <- !list_fmap_compose. by apply list_fmap_ext.
Qed.

End sort_maps.

Lemma seq_from (a n : nat) : seq a n = Nat.add a <$> seq 0 n.
Proof. rewrite fmap_add_seq. f_equal. lia. Qed.

Lemma list_as_lookups (news : list (gmap string value)) :
  news = (fun i => news !!! i) <$> seq 0 (List.length news).
Proof.
  apply list_eq. intros i. rewrite list_lookup_fmap.
  destruct (decide (i < List.length news)%nat) as [Hi|Hi].
  - rewrite lookup_seq_lt by done. simpl. by apply list_lookup_lookup_total_lt.
  - rewrite lookup_seq_ge by lia. simpl. apply lookup_ge_None. lia.
Qed.

Lemma index_key_new h news i :
  (d ← (h ++ news) !! (List.length h + i)%nat; score_key d) = index_key news i.
Proof.
  unfold index_key. rewrite lookup_app_r by lia.
  by replace (List.length h + i - List.length h)%nat with i by lia.
Qed.

(** [score_items] over the store, from its loop and its sort: the new
    objects are the scored rows, and the references returned are those of
    the new objects, in the order in which the value-level [score_items]
    returns the rows. *)
Lemma score_items_st_spec question tag rows entities h ds news :
  points_to h rows ds →
  mapM (score_row question tag entities) ds = Some news →
  ∃ perm,
    list_sort_reverse (index_key news) (seq 0 (List.length news)) = Some perm ∧
    score_items_st question tag rows entities h =
      Some (Nat.add (List.length h) <$> perm, h ++ news) ∧
    score_items question tag ds entities = Some ((fun i => news !!! i) <$> perm).
Proof.
  intros Hp Hn.
  assert (List.length rows = List.length news) as Hlen.
  { rewrite (Forall2_length _ _ _ Hp). apply mapM_Some in Hn.
    by rewrite (Forall2_length _ _ _ Hn). }
  destruct (list_sort_reverse_total (index_key news) (seq 0 (List.length news)))
    as [perm Hperm].
  { apply Forall_forall. intros i Hi. apply elem_of_seq in Hi.
    destruct (lookup_lt_is_Some_2 news i) as [d Hd]; [lia|].
    unfold index_key. rewrite Hd. simpl.
    apply (proj1 (Forall_forall _ _) (scored_rows_keys _ _ _ _ _ Hn)).
    by eapply list_elem_of_lookup_2. }
  exists perm. split; [done|]. split.
  - unfold score_items_st. rewrite (score_loop_spec _ _ _ _ _ _ ds Hp), Hn. simpl.
    rewrite Hlen, seq_from, list_sort_reverse_fmap.
    rewrite (list_sort_reverse_agree _ (index_key news)), Hperm; [done|].
    apply Forall_forall. intros i _. apply index_key_new.
  - unfold score_items. rewrite Hn. simpl.
    trans (list_sort_reverse score_key ((fun i => news !!! i) <$> seq 0 (List.length news))).
    { by rewrite <- list_as_lookups. }
    rewrite list_sort_reverse_fmap.
    rewrite (list_sort_reverse_agree _ (index_key news)), Hperm; [done|].
    apply Forall_forall. intros i Hi. apply elem_of_seq in Hi.
    unfold index_key. simpl.
    by rewrite (list_lookup_lookup_total_lt news i) by lia.
Qed.

Lemma Forall2_fmap_same {I X Y} (P : I → Prop) (R : X → Y → Prop)
    (f : I → X) (g : I → Y) (l : list I) :
  (∀ i, P i → R (f i) (g i)) → Forall P l → Forall2 R (f <$> l) (g <$> l).
Proof. intros HR. induction 1; simpl; constructor; auto. Qed.

Lemma scores_of_new h news perm :
  scores_of (h ++ news) (Nat.add (List.length h) <$> perm) = index_key news <$> perm.
Proof.
  unfold scores_of. rewrite <- list_fmap_compose.
  apply list_fmap_ext. intros _ i _. apply index_key_new.
Qed.

Lemma scored_copies question tag entities ds news :
  mapM (score_row question tag entities) ds = Some news →
  Forall2 (fun d o => ∃ f, final_score question tag d entities = Some f ∧ scored_copy tag f d o)
          ds news.
Proof.
  intros H. apply mapM_Some in H. eapply Forall2_impl; [exact H|].
  intros d o Ho. by apply score_row_Some.
Qed.

(** C10. [score_items] leaves every object of the caller's store, so every
    input row, as it was: each row it returns is a new object, the copy of
    one input row with [_score] and [_tag] set, one per input row, and
    [_tag] is the tag given.  A second call on the same inputs gives the
    same scores.  The call returns whenever the scoring target of every row
    is a string. *)
Theorem score_items_copies_rows (question tag : string) (rows : list nat)
    (entities : gmap string (list string)) (h ds : list (gmap string value)) :
  points_to h rows ds →
  (Forall text_is_str ds → is_Some (score_items_st question tag rows entities h)) ∧
  ∀ out h', score_items_st question tag rows entities h = Some (out, h') →
    (∀ x d, h !! x = Some d → h' !! x = Some d) ∧
    points_to h' rows ds ∧
    (∃ news,
        h' = h ++ news ∧
        Forall2 (fun d o => ∃ f, final_score question tag d entities = Some f ∧
                                 scored_copy tag f d o) ds news ∧
        out ≡ₚ seq (List.length h) (List.length rows)) ∧
    List.length out = List.length rows ∧
    Forall (fun x => h !! x = None ∧
                     ∃ o, h' !! x = Some o ∧ o !! "_tag" = Some (VStr tag)) out ∧
    (∃ rs, score_items question tag ds entities = Some rs ∧ points_to h' out rs) ∧
    ∃ out2 h2,
      score_items_st question tag rows entities h' = Some (out2, h2) ∧
      scores_of h2 out2 = scores_of h' out ∧
      points_to h2 rows ds.
Proof.
  intros Hp. split.
  - intros Hstr.
    destruct (mapM_is_Some_2 (score_row question tag entities) ds) as [news Hn].
    { eapply Forall_impl; [exact Hstr|]. intros d Hd. by apply score_row_total. }
    destruct (score_items_st_spec _ _ _ _ _ _ _ Hp Hn) as (perm & _ & -> & _).
    by eexists.
  - intros out h' Hrun.
    destruct (mapM (score_row question tag entities) ds) as [news|] eqn:Hn; cycle 1.
    { unfold score_items_st in Hrun.
      by rewrite (score_loop_spec _ _ _ _ _ _ ds Hp), Hn in Hrun. }
    destruct (score_items_st_spec _ _ _ _ _ _ _ Hp Hn) as (perm & Hperm & Hst & Hpure).
    rewrite Hst in Hrun. simplify_eq.
    assert (List.length rows = List.length news) as Hlen.
    { rewrite (Forall2_length _ _ _ Hp).
      by rewrite (Forall2_length _ _ _ (proj1 (mapM_Some _ _ _) Hn)). }
    pose proof (list_sort_reverse_spec _ _ _ Hperm) as (Hpp & _ & _).
    assert (Forall (fun i => i < List.length news)%nat perm) as Hlt.
    { rewrite Hpp. apply Forall_forall. intros i Hi. apply elem_of_seq in Hi. lia. }
    pose proof (scored_copies _ _ _ _ _ Hn) as Hcopies.
    repeat split.
    + intros x d Hx. by apply lookup_app_l_Some.
    + by apply points_to_app.
    + exists news. repeat split; [done|]. by rewrite Hpp, Hlen, <- seq_from.
    + by rewrite length_fmap, Hpp, length_seq.
    + apply Forall_fmap. eapply Forall_impl; [exact Hlt|]. intros i Hi. simpl. split.
      * apply lookup_ge_None. lia.
      * destruct (lookup_lt_is_Some_2 news i Hi) as [o Ho].
        exists o. split.
        { rewrite lookup_app_r by lia.
          by replace (List.length h + i - List.length h)%nat with i by lia. }
        destruct (Forall2_lookup_r _ _ _ _ _ Hcopies Ho) as (d & _ & f & _ & Hc).
        by apply scored_copy_lookups in Hc as (_ & ? & _).
    + exists ((fun i => news !!! i) <$> perm). split; [done|].
      unfold points_to. eapply Forall2_fmap_same; [|exact Hlt].
      intros i Hi. simpl. rewrite lookup_app_r by lia.
      replace (List.length h + i - List.length h)%nat with i by lia.
      by apply list_lookup_lookup_total_lt.
    + pose proof (points_to_app h news rows ds Hp) as Hp'.
      destruct (score_items_st_spec _ _ _ _ _ _ _ Hp' Hn) as (perm2 & Hperm2 & Hst2 & _).
      rewrite Hperm in Hperm2. simplify_eq.
      eexists _, _. split; [exact Hst2|]. split.
      * by rewrite !scores_of_new.
      * by apply points_to_app.
Qed.

(** The store holds the three rows of the scenario; the caller passes the
    second one, then the first one. *)
Lemma score_items_copies_rows_witness :
  ∃ out h',
    score_items_st "does svm help with cough" "Symptoms" [1; 0]%nat scenario_entities
      scenario_rows = Some (out, h') ∧
    (∀ x d, scenario_rows !! x = Some d → h' !! x = Some d) ∧
    List.length out = 2%nat.
Proof.
  assert (points_to scenario_rows [1; 0]%nat
            [ {[ "item" := VStr "svm classification model" ]}; {[ "item" := VStr "cough" ]} ])
    as Hp by (repeat constructor).
  destruct (score_items_copies_rows "does svm help with cough" "Symptoms" [1; 0]%nat
              scenario_entities scenario_rows _ Hp) as [Htotal Hrun].
  destruct Htotal as [[out h'] Hs].
  { repeat constructor; eexists; vm_compute; reflexivity. }
  destruct (Hrun out h' Hs) as (Hframe & _ & _ & Hlen & _).
  exists out, h'. exact (conj Hs (conj Hframe Hlen)).
Defined.

(* ===================================================================== *)
(** * Further properties                                                  *)
(* ===================================================================== *)

(** ** Strings *)

Lemma lower_no_upper s : no_upper s = true → lower s = s.
Proof.
  induction s as [|c s IH]; simpl; [done|]. intros H.
  apply andb_prop in H as [Hc H]. rewrite (IH H).
  unfold char_lower. by destruct (is_upper c).
Qed.

Lemma lstrip_no_space s : starts_space s = false → lstrip s = s.
Proof. destruct s as [|c s]; simpl; [done|]. by intros ->. Qed.

Lemma rstrip_no_space s : ends_space s = false → rstrip s = s.
Proof.
  induction s as [|c s IH]; [done|]. intros H.
  destruct s as [|c1 s].
  - simpl in *. by rewrite H.
  - change (ends_space (String c (String c1 s))) with (ends_space (String c1 s)) in H.
    change (rstrip (String c (String c1 s))) with
      (match rstrip (String c1 s) with
       | EmptyString => if is_space c then EmptyString else String c EmptyString
       | r => String c r
       end).
    by rewrite (IH H).
Qed.

Lemma collapse_ws_single_spaced s : single_spaced s = true → collapse_ws s = s.
Proof.
  induction s as [|c s IH]; [done|]. intros H.
  simpl in H. apply andb_prop in H as [Hc H]. specialize (IH H).
  simpl. destruct (is_space c).
  - apply andb_prop in Hc as [Hc Hs]. apply Ascii.eqb_eq in Hc as ->.
    destruct s as [|c1 s]; [done|].
    simpl in Hs. apply negb_true_iff in Hs. rewrite Hs. by rewrite IH.
  - by rewrite IH.
Qed.

Lemma length_lstrip s : (String.length (lstrip s) ≤ String.length s)%nat.
Proof.
  induction s as [|c s IH]; simpl; [done|].
  destruct (is_space c); simpl; lia.
Qed.

Lemma length_rstrip s : (String.length (rstrip s) ≤ String.length s)%nat.
Proof.
  induction s as [|c s IH]; simpl; [done|].
  destruct (rstrip s); [destruct (is_space c)|]; simpl in *; lia.
Qed.

Lemma length_collapse_ws s : (String.length (collapse_ws s) ≤ String.length s)%nat.
Proof.
  induction s as [|c s IH]; [done|]. simpl.
  destruct (is_space c); [|simpl; lia].
  destruct s as [|c1 s]; [simpl; lia|].
  destruct (is_space c1); simpl in *; lia.
Qed.

Lemma lstrip_all_space s : all_space s = true → lstrip s = EmptyString.
Proof.
  induction s as [|c s IH]; simpl; [done|]. intros H.
  apply andb_prop in H as [-> H]. by apply IH.
Qed.

Lemma all_space_lower s : all_space (lower s) = all_space s.
Proof.
  induction s as [|c s IH]; simpl; [done|]. rewrite IH. f_equal.
  destruct c as [[] [] [] [] [] [] [] []]; reflexivity.
Qed.

Lemma normalize_fixed t : normal_form t → _normalize t = t.
Proof.
  intros (Hu & Hs & He & Hc). unfold _normalize, strip.
  by rewrite (lower_no_upper _ Hu), (lstrip_no_space _ Hs), (rstrip_no_space _ He),
    (collapse_ws_single_spaced _ Hc).
Qed.

Lemma normalize_twice text : _normalize (_normalize text) = _normalize text.
Proof. apply normalize_fixed, normalize_normal_form. Qed.

(** X1. A string that is lower-cased, trimmed and single-spaced is left as it
    is by [_normalize]; so normalizing twice is normalizing once. *)
Theorem normalize_idempotent (text : string) :
  (normal_form text → _normalize text = text) ∧
  _normalize (_normalize text) = _normalize text.
Proof. split; [apply normalize_fixed | apply normalize_twice]. Qed.

Lemma normalize_idempotent_witness :
  _normalize "what are the symptoms?" = "what are the symptoms?".
Proof.
  apply (proj1 (normalize_idempotent "what are the symptoms?")).
  repeat split; vm_compute; reflexivity.
Defined.

(** X2. Trimming and collapsing never lengthen: the normalized text is no
    longer than the lower-cased text.  A text made of whitespace only
    normalizes to the empty string. *)
Theorem normalize_length (text : string) :
  (String.length (_normalize text) ≤ String.length (lower text))%nat ∧
  (all_space text = true → _normalize text = EmptyString).
Proof.
  unfold _normalize, strip. split.
  - pose proof (length_collapse_ws (rstrip (lstrip (lower text)))).
    pose proof (length_rstrip (lstrip (lower text))).
    pose proof (length_lstrip (lower text)). lia.
  - intros H. rewrite <- all_space_lower in H.
    by rewrite (lstrip_all_space _ H).
Qed.

Lemma normalize_length_witness :
  _normalize "   " = EmptyString.
Proof. apply (proj2 (normalize_length "   ")). reflexivity. Defined.

(** ** Substrings *)

Lemma append_assoc_str (a b c : string) : (a +:+ b) +:+ c = a +:+ (b +:+ c).
Proof. induction a as [|x a IH]; [done|]. by rewrite !append_cons, IH. Qed.

Lemma startswith_spec p s : startswith p s = true ↔ ∃ r, s = p +:+ r.
Proof.
  revert s. induction p as [|a p IH]; intros s.
  - split; [by exists s | by destruct s].
  - destruct s as [|b s]; simpl.
    + split; [done | by intros [r Hr]].
    + rewrite andb_true_iff, Ascii.eqb_eq, IH. split.
      * intros [-> [r ->]]. by exists r.
      * intros [r Hr]. rewrite append_cons in Hr. injection Hr as -> ->. eauto.
Qed.

Lemma str_in_spec p s : str_in p s = true ↔ ∃ l r, s = l +:+ (p +:+ r).
Proof.
  induction s as [|c s IH].
  - simpl. rewrite orb_false_r, startswith_spec. split.
    + intros [r Hr]. by exists EmptyString, r.
    + intros ([|x l] & r & Hr); [by exists r | done].
  - simpl. rewrite orb_true_iff, startswith_spec, IH. split.
    + intros [[r Hr]|(l & r & ->)].
      * by exists EmptyString, r.
      * by exists (String c l), r.
    + intros ([|x l] & r & Hr).
      * left. by exists r.
      * right. rewrite append_cons in Hr. injection Hr as -> ->. by exists l, r.
Qed.

Lemma str_in_refl p : str_in p p = true.
Proof.
  apply str_in_spec. exists EmptyString, EmptyString.
  rewrite append_empty. induction p as [|c p IH]; [done|]. by rewrite append_cons, <- IH.
Qed.

(** A substring of a substring is a substring. *)
Lemma str_in_trans a b c : str_in a b = true → str_in b c = true → str_in a c = true.
Proof.
  rewrite !str_in_spec. intros (l1 & r1 & ->) (l2 & r2 & ->).
  exists (l2 +:+ l1), (r1 +:+ r2). by rewrite !append_assoc_str.
Qed.

Lemma str_in_empty_r p : str_in p EmptyString = true → p = EmptyString.
Proof. by destruct p. Qed.

(** ** The classifier *)

Lemma scan_keywords_existsb q intent kws :
  scan_keywords q intent kws =
    if existsb (fun kw => str_in kw q) kws then Some intent else None.
Proof.
  induction kws as [|kw kws IH]; simpl; [done|].
  by destruct (str_in kw q).
Qed.

Lemma scan_intents_label q table intent :
  scan_intents q table = Some intent → intent ∈ table.*1.
Proof.
  induction table as [|[i kws] table IH]; simpl; [done|].
  rewrite scan_keywords_existsb.
  destruct (existsb _ kws).
  - intros [= ->]. apply list_elem_of_here.
  - intros H. apply list_elem_of_further. by apply IH.
Qed.

Lemma detect_intent_label question :
  _detect_intent question = "generic" ∨ _detect_intent question ∈ SPECIFIC_INTENTS.
Proof.
  unfold _detect_intent. cbv zeta.
  destruct (scan_intents (_normalize question) INTENTS) as [i|] eqn:Hi; [|by left].
  right. by apply scan_intents_label in Hi.
Qed.

(** X3. The dict returned by [classify_intent_and_entities] has exactly the
    keys "intent" and "entities", and its intent is always one of the eight
    labels: "generic" or one of the seven of the keyword table. *)
Theorem classify_labels (question : string) :
  dom (classify_intent_and_entities question) = ({[ "intent"; "entities" ]} : gset string) ∧
  classify_intent_and_entities question !! "intent" = Some (CIntent (_detect_intent question)) ∧
  classify_intent_and_entities question !! "entities" =
    Some (CEntities (_extract_entities question)) ∧
  (_detect_intent question = "generic" ∨ _detect_intent question ∈ SPECIFIC_INTENTS).
Proof.
  split; [|split; [|split]].
  - unfold classify_intent_and_entities. cbv zeta.
    rewrite !dom_insert_L, dom_empty_L. set_solver.
  - done.
  - done.
  - apply detect_intent_label.
Qed.

(** X4. The classifier sees a question only through its normalized form:
    the intent and the entities of a question and of its normalization are
    the same, whatever the case and the whitespace of the question. *)
Theorem classify_normalized (question : string) :
  _detect_intent (_normalize question) = _detect_intent question ∧
  _extract_entities (_normalize question) = _extract_entities question.
Proof.
  unfold _detect_intent, _extract_entities. cbv zeta.
  by rewrite normalize_twice.
Qed.

Lemma covered_hit q l1 l2 :
  covered l1 l2 = true →
  existsb (fun kw => str_in kw q) l1 = true → existsb (fun kw => str_in kw q) l2 = true.
Proof.
  unfold covered. rewrite forallb_forall. intros Hc H.
  apply existsb_exists in H as (kw & Hkw & Hq).
  specialize (Hc kw Hkw). apply existsb_exists in Hc as (k & Hk & Hkkw).
  apply existsb_exists. exists k. split; [done|]. by eapply str_in_trans.
Qed.

Lemma covered_same_hit q l1 l2 :
  covered l1 l2 = true → covered l2 l1 = true →
  existsb (fun kw => str_in kw q) l1 = existsb (fun kw => str_in kw q) l2.
Proof.
  intros H12 H21.
  destruct (existsb _ l1) eqn:H1.
  - symmetry. by eapply covered_hit.
  - destruct (existsb _ l2) eqn:H2; [|done].
    by rewrite (covered_hit q l2 l1 H21 H2) in H1.
Qed.

Lemma same_hits_scan q t1 : ∀ t2,
  same_hits t1 t2 = true → scan_intents q t1 = scan_intents q t2.
Proof.
  induction t1 as [|[i1 k1] t1 IH]; intros [|[i2 k2] t2]; simpl; try done.
  rewrite !andb_true_iff. intros [[[Hi H12] H21] Hrest].
  apply String.eqb_eq in Hi as ->.
  rewrite !scan_keywords_existsb, (covered_same_hit q k1 k2 H12 H21), (IH _ Hrest). done.
Qed.

(** X5. Seven keywords of the table never decide anything: each contains an
    earlier keyword of its own intent ("symptoms" contains "symptom", the
    three longer risk phrases contain "risk", and so on).  Detection with the
    table without them gives the same intent for every question. *)
Theorem detect_intent_core_table (question : string) :
  _detect_intent question =
    match scan_intents (_normalize question) INTENTS_CORE with
    | Some intent => intent
    | None => "generic"
    end.
Proof.
  unfold _detect_intent. cbv zeta.
  by rewrite (same_hits_scan _ INTENTS INTENTS_CORE) by (vm_compute; reflexivity).
Qed.

Lemma first_hit_none_inv q l :
  first_hit q l = None → Forall (fun p => str_in p.2 q = false) l.
Proof.
  induction l as [|[i kw] l IH]; simpl; [constructor|].
  destruct (str_in kw q) eqn:Hkw; [done|]. intros H. constructor; auto.
Qed.

Lemma extract_diseases question :
  entity_list (_extract_entities question) "diseases" =
    if str_in "lung cancer" (_normalize question) then ["lung cancer"] else [].
Proof. done. Qed.

Lemma extract_algorithms question :
  entity_list (_extract_entities question) "algorithms" =
    omap (fun '(short, kws) =>
            if existsb (fun kw => str_in kw (_normalize question)) kws
            then Some short else None) ALGORITHM_ALIASES.
Proof. done. Qed.

Lemma extract_sections question :
  entity_list (_extract_entities question) "sections" =
    filter (fun s => str_in s (_normalize question) = true) SECTION_NAMES.
Proof. done. Qed.

(** X6. The intent is "generic" only when no keyword of the table occurs in
    the normalized question; "results" and "conclusion" are keywords, so the
    sections extracted from a generic question are among "abstract",
    "introduction" and "methodology". *)
Theorem generic_no_keyword (question : string) :
  _detect_intent question = "generic" →
  Forall (fun p => str_in p.2 (_normalize question) = false) (keywords_in_order INTENTS) ∧
  entity_list (_extract_entities question) "sections" =
    filter (fun s => str_in s (_normalize question) = true)
           ["abstract"; "introduction"; "methodology"].
Proof.
  intros Hg.
  assert (Forall (fun p => str_in p.2 (_normalize question) = false)
            (keywords_in_order INTENTS)) as Hall.
  { unfold _detect_intent in Hg. cbv zeta in Hg.
    destruct (scan_intents (_normalize question) INTENTS) as [i|] eqn:Hi.
    - apply scan_intents_label in Hi. subst i. exfalso.
      repeat (apply elem_of_cons in Hi as [Hi|Hi]; [discriminate Hi|]).
      by apply elem_of_nil in Hi.
    - rewrite scan_intents_first_hit in Hi. by apply first_hit_none_inv. }
  split; [done|].
  rewrite extract_sections. unfold SECTION_NAMES.
  assert (str_in "results" (_normalize question) = false) as Hr.
  { apply (proj1 (Forall_forall _ _) Hall ("results", "results")).
    unfold keywords_in_order, INTENTS. simpl. set_solver. }
  assert (str_in "conclusion" (_normalize question) = false) as Hc.
  { apply (proj1 (Forall_forall _ _) Hall ("conclusion", "conclusion")).
    unfold keywords_in_order, INTENTS. simpl. set_solver. }
  rewrite !filter_cons, !filter_nil.
  repeat case_decide; congruence.
Qed.

Lemma generic_no_keyword_witness :
  entity_list (_extract_entities "Who wrote the Introduction?") "sections" =
    filter (fun s => str_in s (_normalize "Who wrote the Introduction?") = true)
           ["abstract"; "introduction"; "methodology"].
Proof.
  apply (generic_no_keyword "Who wrote the Introduction?").
  vm_compute. reflexivity.
Defined.

Lemma Forall_of_sublist {X} (P : X → Prop) (l1 l2 : list X) :
  l1 `sublist_of` l2 → Forall P l2 → Forall P l1.
Proof.
  intros Hs H. apply Forall_forall. intros x Hx.
  apply (proj1 (Forall_forall _ _) H). by eapply elem_of_sublist.
Qed.

(** X7. The entities of a question always have the three keys "diseases",
    "algorithms" and "sections"; each list follows the order of its table
    without repetition, and every entity is a non-empty lower-case string. *)
Theorem extract_entities_shape (question : string) :
  dom (_extract_entities question) = ({[ "diseases"; "algorithms"; "sections" ]} : gset string) ∧
  entity_list (_extract_entities question) "diseases" `sublist_of` ["lung cancer"] ∧
  entity_list (_extract_entities question) "algorithms" `sublist_of` ALGORITHM_ALIASES.*1 ∧
  entity_list (_extract_entities question) "sections" `sublist_of` SECTION_NAMES ∧
  Forall (fun x => x ≠ EmptyString ∧ no_upper x = true)
    (entity_list (_extract_entities question) "diseases" ++
     entity_list (_extract_entities question) "algorithms" ++
     entity_list (_extract_entities question) "sections").
Proof.
  assert (entity_list (_extract_entities question) "diseases" `sublist_of` ["lung cancer"]) as Hd.
  { rewrite extract_diseases. destruct (str_in _ _); repeat constructor. }
  assert (entity_list (_extract_entities question) "algorithms" `sublist_of` ALGORITHM_ALIASES.*1)
    as Ha.
  { rewrite extract_algorithms. unfold ALGORITHM_ALIASES. simpl.
    repeat match goal with
           | |- context [str_in ?k ?q] => destruct (str_in k q)
           end; simpl; repeat constructor. }
  assert (entity_list (_extract_entities question) "sections" `sublist_of` SECTION_NAMES) as Hs.
  { rewrite extract_sections. apply sublist_filter. }
  split; [|split; [done|split; [done|split; [done|]]]].
  - unfold _extract_entities. cbv zeta. rewrite !dom_insert_L, dom_empty_L. set_solver.
  - assert (Forall (fun x => x ≠ EmptyString ∧ no_upper x = true)
              (["lung cancer"] ++ ALGORITHM_ALIASES.*1 ++ SECTION_NAMES)) as Hall
      by (repeat constructor; done).
    apply Forall_app in Hall as [H1 H2]. apply Forall_app in H2 as [H2 H3].
    rewrite !Forall_app. repeat split.
    + by eapply Forall_of_sublist.
    + by eapply Forall_of_sublist.
    + by eapply Forall_of_sublist.
Qed.

(** X8. An algorithm code is extracted exactly when one of the keywords of
    its alias group occurs in the normalized question, as a substring and
    not as a word: a question that contains "performance" always yields the
    algorithm "rf". *)
Theorem extract_algorithms_substring (question : string) :
  (∀ short,
      short ∈ entity_list (_extract_entities question) "algorithms" ↔
      ∃ kws kw, (short, kws) ∈ ALGORITHM_ALIASES ∧ kw ∈ kws ∧
                str_in kw (_normalize question) = true) ∧
  (str_in "performance" (_normalize question) = true →
   "rf" ∈ entity_list (_extract_entities question) "algorithms").
Proof.
  assert (∀ short,
      short ∈ entity_list (_extract_entities question) "algorithms" ↔
      ∃ kws kw, (short, kws) ∈ ALGORITHM_ALIASES ∧ kw ∈ kws ∧
                str_in kw (_normalize question) = true) as Hmem.
  { intros short. rewrite extract_algorithms, list_elem_of_omap. split.
    - intros ([sh kws] & Hin & Hf).
      destruct (existsb _ kws) eqn:He; [|done]. injection Hf as ->.
      apply existsb_exists in He as (kw & Hkw & Hq).
      exists kws, kw. split; [done|]. split; [by apply list_elem_of_In | done].
    - intros (kws & kw & Hin & Hkw & Hq).
      exists (short, kws). split; [done|].
      assert (existsb (fun kw => str_in kw (_normalize question)) kws = true) as ->; [|done].
      apply existsb_exists. exists kw. split; [by apply list_elem_of_In | done]. }
  split; [done|]. intros Hp. apply Hmem.
  exists ["rf"; "random forest"], "rf". repeat split.
  - unfold ALGORITHM_ALIASES. do 2 apply list_elem_of_further. apply list_elem_of_here.
  - apply list_elem_of_here.
  - by apply (str_in_trans "rf" "performance").
Qed.

Lemma extract_algorithms_substring_witness :
  "rf" ∈ entity_list (_extract_entities "How is performance measured?") "algorithms".
Proof.
  apply (proj2 (extract_algorithms_substring "How is performance measured?")).
  vm_compute. reflexivity.
Defined.

(** ** The query-spec builder *)

Ltac case_intent intent :=
  repeat match goal with
         | |- context [String.eqb intent ?x] =>
             destruct (String.eqb_spec intent x) as [->|?]; simpl
         end.

(** X9. [build_queries] returns two specs for the intent "results" and one
    spec for every other intent. *)
Theorem build_queries_length (intent : string) (entities : gmap string (list string))
    (question_text : string) :
  List.length (build_queries intent entities question_text) =
    if String.eqb intent "results" then 2%nat else 1%nat.
Proof. unfold build_queries, append. case_intent intent; reflexivity. Qed.

(** X10. A returned query has a placeholder exactly when its spec has
    params: the specs of the seven specific intents have no "$" in their
    query and no params, and the fallback spec has the placeholder "$q" with
    [q] bound to the question text and nothing else. *)
Theorem build_queries_placeholders (intent : string) (entities : gmap string (list string))
    (question_text : string) :
  Forall (fun s =>
            (str_in "$" (query s) = false ∧ params s = ∅ ∧ intent ∈ SPECIFIC_INTENTS) ∨
            (str_in "$q" (query s) = true ∧ params s = {[ "q" := question_text ]} ∧
             intent ∉ SPECIFIC_INTENTS))
         (build_queries intent entities question_text).
Proof.
  unfold build_queries, append. case_intent intent.
  all: repeat first [apply Forall_nil_2 | apply Forall_cons_2].
  all: first
    [ left; split; [reflexivity|]; split; [reflexivity|];
      unfold SPECIFIC_INTENTS; apply list_elem_of_In; simpl; tauto
    | right; split; [reflexivity|]; split; [reflexivity|];
      unfold SPECIFIC_INTENTS; intros H;
      repeat (apply elem_of_cons in H as [H|H]; [done|]);
      by apply elem_of_nil in H ].
Qed.

(** X11. The question text and the entities never enter a query string or
    a tag: for one intent the builder returns the same tags and the same
    query strings whatever the question and the entities.  The question is
    passed on as a parameter only. *)
Theorem build_queries_fixed_queries (intent : string)
    (entities1 entities2 : gmap string (list string)) (question1 question2 : string) :
  query <$> build_queries intent entities1 question1 =
    query <$> build_queries intent entities2 question2 ∧
  tag <$> build_queries intent entities1 question1 =
    tag <$> build_queries intent entities2 question2.
Proof. unfold build_queries, append. case_intent intent; split; reflexivity. Qed.

Ltac tags_of_intent :=
  split; [split; [discriminate | intros H; vm_compute in H; discriminate H]|];
  split; [repeat (apply NoDup_cons_2; [by (intros H; repeat (apply elem_of_cons in H as [H|H];
                                           [discriminate H|]); by apply elem_of_nil in H)|]);
          apply NoDup_nil_2
         | repeat first [apply Forall_nil_2 | apply Forall_cons_2; [reflexivity|]] ].

(** X12. Classifier and builder together: the specs built for a question
    are the single "Sections" spec exactly when its intent is "generic", the
    tags are distinct, and a tag earns the proximity boost of [score_items]
    unless it is "Sections" or "BestModel". *)
Theorem classify_then_build (question : string) :
  (_detect_intent question = "generic" ↔
   tag <$> build_queries (_detect_intent question) (_extract_entities question) question
     = ["Sections"]) ∧
  NoDup (tag <$> build_queries (_detect_intent question) (_extract_entities question) question) ∧
  Forall (fun t => proximity t = (if bool_decide (t = "Sections" ∨ t = "BestModel")
                                  then 0 else 0.2)%Q)
         (tag <$> build_queries (_detect_intent question) (_extract_entities question) question).
Proof.
  generalize (_extract_entities question). intros entities.
  destruct (detect_intent_label question) as [Hi|Hi];
    revert Hi; generalize (_detect_intent question); intros intent Hi.
  - subst intent. split; [done|]. split.
    + apply NoDup_singleton.
    + repeat first [apply Forall_nil_2 | apply Forall_cons_2]. reflexivity.
  - unfold SPECIFIC_INTENTS in Hi.
    repeat (apply elem_of_cons in Hi as [->|Hi]; [tags_of_intent|]).
    by apply elem_of_nil in Hi.
Qed.

Lemma classify_then_build_witness :
  tag <$> build_queries (_detect_intent "Who wrote the paper?")
            (_extract_entities "Who wrote the paper?") "Who wrote the paper?" = ["Sections"].
Proof.
  apply (proj1 (proj1 (classify_then_build "Who wrote the paper?"))).
  vm_compute. reflexivity.
Defined.

(** ** Texts that are not strings *)

Lemma or_empty_lower_falsy v : truthy v = false → or_empty_lower v = Some EmptyString.
Proof. unfold or_empty_lower, py_or. by intros ->. Qed.

Lemma or_empty_lower_None v : or_empty_lower v = None ↔ non_text v.
Proof.
  unfold non_text. split.
  - intros H. destruct (truthy v) eqn:Hv.
    + split; [done|]. intros s ->. by rewrite or_empty_lower_str in H.
    + by rewrite (or_empty_lower_falsy _ Hv) in H.
  - intros [Hv Hs]. unfold or_empty_lower, py_or. rewrite Hv.
    destruct v; try done. by destruct (Hs s).
Qed.



(** ** Tokens *)

Lemma str_in_cons p c s : str_in p s = true → str_in p (String c s) = true.
Proof. intros H. simpl. rewrite H. apply orb_true_r. Qed.

Lemma startswith_str_in p s : startswith p s = true → str_in p s = true.
Proof. intros H. destruct s; simpl; by rewrite H. Qed.

Lemma startswith_take_tokchars s : startswith (take_tokchars s) s = true.
Proof.
  induction s as [|c s IH]; simpl; [done|].
  destruct (is_tokchar c); simpl; [|done].
  by rewrite Ascii.eqb_refl, IH.
Qed.

Lemma no_upper_app a b : no_upper (a +:+ b) = no_upper a && no_upper b.
Proof.
  induction a as [|c a IH]; [done|].
  rewrite append_cons. simpl. by rewrite IH, andb_assoc.
Qed.

(** A substring of a lower-case string is lower-case. *)
Lemma no_upper_substring p s : str_in p s = true → no_upper s = true → no_upper p = true.
Proof.
  intros (l & r & ->)%str_in_spec. rewrite !no_upper_app, !andb_true_iff. tauto.
Qed.

Lemma findall_tokens s : ∀ skip,
  Forall (fun t => (3 ≤ String.length t)%nat ∧ starts_letter t = true ∧
                   all_tok t = true ∧ str_in t s = true)
         (findall skip s).
Proof.
  induction s as [|c s IH]; intros skip; [constructor|].
  assert (∀ k, Forall (fun t => (3 ≤ String.length t)%nat ∧ starts_letter t = true ∧
                                all_tok t = true ∧ str_in t (String c s) = true)
                 (findall k s)) as IH'.
  { intros k. eapply Forall_impl; [apply (IH k)|].
    intros t (? & ? & ? & ?). repeat split; try done. by apply str_in_cons. }
  destruct skip as [|k]; [|apply IH'].
  change (findall 0 (String c s)) with
    (match match_at (String c s) with
     | Some m => m :: findall (String.length m - 1) s
     | None => findall 0 s
     end).
  unfold match_at. destruct (is_letter c) eqn:Hc; [|apply IH']. cbv zeta.
  destruct (2 <=? String.length (take_tokchars s))%nat eqn:Hlen; [|apply IH'].
  apply Nat.leb_le in Hlen. constructor; [|apply IH'].
  repeat split.
  - simpl. lia.
  - done.
  - simpl. by rewrite (is_letter_tokchar _ Hc), all_tok_take.
  - apply startswith_str_in. simpl.
    by rewrite Ascii.eqb_refl, startswith_take_tokchars.
Qed.

(** X14. Every token of a string has at least three characters, starts with
    a letter, consists of letters and hyphens, has no upper-case letter and
    occurs in the lower-cased text. *)
Theorem tokens_well_formed (s : string) :
  ∃ ts, _tokenize (VStr s) = Some ts ∧
        Forall (fun t => (3 ≤ String.length t)%nat ∧ starts_letter t = true ∧
                         all_tok t = true ∧ no_upper t = true ∧
                         str_in t (lower s) = true) ts.
Proof.
  rewrite tokenize_str. eexists. split; [done|].
  eapply Forall_impl; [apply findall_tokens|].
  intros t (? & ? & ? & Hin). repeat split; try done.
  eapply no_upper_substring; [exact Hin | apply no_upper_lower].
Qed.

(** ** Lexical overlap *)

Lemma lower_lower s : lower (lower s) = lower s.
Proof. apply lower_no_upper, no_upper_lower. Qed.

Lemma token_set_lower s : token_set (lower s) = token_set s.
Proof. unfold token_set. by rewrite lower_lower. Qed.

Lemma ratio_one_zero (n d : Z) :
  (1 <= d)%Z →
  ((inject_Z n / inject_Z d == 1)%Q ↔ n = d) ∧ ((inject_Z n / inject_Z d == 0)%Q ↔ n = 0%Z).
Proof.
  intros Hd. destruct d as [|p|p]; try lia.
  rewrite <- Qmake_Qdiv. unfold Qeq. simpl. split; lia.
Qed.

Lemma ratio_le (n1 n2 d : Z) :
  (1 <= d)%Z → (n1 <= n2)%Z → (inject_Z n1 / inject_Z d <= inject_Z n2 / inject_Z d)%Q.
Proof.
  intros Hd Hn. destruct d as [|p|p]; try lia.
  rewrite <- !Qmake_Qdiv. unfold Qle. simpl. nia.
Qed.

Lemma size_pos_of_nonempty (X : gset string) : X ≠ ∅ → (1 <= Z.of_nat (size X))%Z.
Proof.
  intros H. destruct (size X) eqn:Hs; [|lia].
  apply size_empty_iff in Hs. exfalso. apply H. by apply leibniz_equiv.
Qed.

Lemma subseteq_empty_eq (X Y : gset string) : X ⊆ Y → Y = ∅ → X = ∅.
Proof.
  intros Hsub ->. apply leibniz_equiv, elem_of_equiv_empty.
  intros x Hx. by apply Hsub, elem_of_empty in Hx.
Qed.

Lemma intersection_mono_r (X Y1 Y2 : gset string) : Y1 ⊆ Y2 → X ∩ Y1 ⊆ X ∩ Y2.
Proof.
  intros Hsub x [H1 H2]%elem_of_intersection.
  apply elem_of_intersection. split; [done | by apply Hsub].
Qed.

(** X15. The overlap of a question with a text is 1 exactly when the
    question has tokens and all of them are tokens of the text, and 0
    exactly when the two share no token. *)
Theorem lexical_overlap_extremes (q t : string) :
  ∃ x, lexical_overlap_score q (VStr t) = Some x ∧
       ((x == 1)%Q ↔ token_set q ≠ ∅ ∧ token_set q ⊆ token_set t) ∧
       ((x == 0)%Q ↔ token_set q ∩ token_set t = ∅).
Proof.
  rewrite lexical_overlap_str. eexists. split; [done|].
  destruct (decide (token_set q = ∅)) as [Hq|Hq].
  { rewrite Hq, bool_decide_eq_true_2 by done. simpl. split.
    - split; [intros H; discriminate H | intros [H _]; done].
    - split; [intros _; apply (left_absorb_L _ _) | done]. }
  destruct (decide (token_set t = ∅)) as [Ht|Ht].
  { rewrite Ht, (bool_decide_eq_true_2 (∅ = ∅)), orb_true_r by done. split.
    - split; [intros H; discriminate H|].
      intros [_ Hsub]. exfalso. by apply Hq, (subseteq_empty_eq _ ∅).
    - split; [intros _; apply (right_absorb_L _ _) | done]. }
  rewrite !bool_decide_eq_false_2 by done. simpl.
  pose proof (size_pos_of_nonempty _ Hq) as Hpos.
  rewrite Z.max_r by lia.
  destruct (ratio_one_zero (Z.of_nat (size (token_set q ∩ token_set t)))
              (Z.of_nat (size (token_set q))) Hpos) as [H1 H0].
  rewrite H1, H0. split.
  - split.
    + intros Hs. split; [done|].
      assert (token_set q ∩ token_set t = token_set q) as He.
      { apply set_subseteq_size_eq; [apply intersection_subseteq_l | lia]. }
      rewrite <- He. apply intersection_subseteq_r.
    + intros [_ Hsub]. f_equal. f_equal. by apply subseteq_intersection_1_L.
  - split.
    + intros Hs. apply leibniz_equiv, size_empty_iff. lia.
    + intros ->. by rewrite size_empty.
Qed.

Lemma lexical_overlap_extremes_witness :
  ∃ x, lexical_overlap_score "dry cough" (VStr "a Dry, persistent COUGH") = Some x ∧
       (x == 1)%Q.
Proof.
  destruct (lexical_overlap_extremes "dry cough" "a Dry, persistent COUGH")
    as (x & Hx & H1 & _).
  exists x. split; [exact Hx|]. apply H1. split.
  - vm_compute. discriminate.
  - apply (bool_decide_unpack _). vm_compute. reflexivity.
Defined.

(** X16. More tokens in the text never lower the overlap: when the tokens
    of one text are among those of another, the first overlaps a question
    no more than the second. *)
Theorem lexical_overlap_monotone (q t1 t2 : string) :
  token_set t1 ⊆ token_set t2 →
  ∃ x1 x2, lexical_overlap_score q (VStr t1) = Some x1 ∧
           lexical_overlap_score q (VStr t2) = Some x2 ∧ (x1 <= x2)%Q.
Proof.
  intros Hsub. rewrite !lexical_overlap_str. eexists _, _. split; [done|]. split; [done|].
  destruct (decide (token_set q = ∅)) as [Hq|Hq].
  { rewrite bool_decide_eq_true_2 by done. simpl. lra. }
  rewrite (bool_decide_eq_false_2 (token_set q = ∅)) by done. simpl.
  destruct (bool_decide (token_set t1 = ∅)) eqn:H1.
  { destruct (bool_decide (token_set t2 = ∅)); [lra|]. apply overlap_ratio_bounds. }
  apply bool_decide_eq_false in H1.
  rewrite bool_decide_eq_false_2 by (intros H2; by apply H1, (subseteq_empty_eq _ _ Hsub)).
  apply ratio_le.
  - pose proof (size_pos_of_nonempty _ Hq). lia.
  - by apply Nat2Z.inj_le, subseteq_size, intersection_mono_r.
Qed.

Lemma lexical_overlap_monotone_witness :
  ∃ x1 x2, lexical_overlap_score "dry cough" (VStr "cough") = Some x1 ∧
           lexical_overlap_score "dry cough" (VStr "Dry COUGH, fever") = Some x2 ∧
           (x1 <= x2)%Q.
Proof.
  apply (lexical_overlap_monotone "dry cough" "cough" "Dry COUGH, fever").
  apply (bool_decide_unpack _). vm_compute. reflexivity.
Defined.

(** X17. Tokenization and overlap do not see the case of their inputs:
    lower-casing the question or the text changes neither the tokens nor
    the overlap. *)
Theorem lexical_overlap_case_insensitive (q t : string) :
  _tokenize (VStr (lower t)) = _tokenize (VStr t) ∧
  lexical_overlap_score (lower q) (VStr (lower t)) = lexical_overlap_score q (VStr t).
Proof.
  split.
  - by rewrite !tokenize_str, lower_lower.
  - by rewrite !lexical_overlap_str, !token_set_lower.
Qed.

(** ** Entity boost *)

Lemma entity_match_boost_str s entities :
  entity_match_boost (VStr s) entities =
    Some (Qmin (add_matches (lower s) (entity_list entities "diseases")
                  (add_matches (lower s) (entity_list entities "algorithms") 0)) 0.6).
Proof. unfold entity_match_boost. cbv zeta. by rewrite or_empty_lower_str. Qed.

Lemma add_matches_total t entities :
  (add_matches t (entity_list entities "diseases")
     (add_matches t (entity_list entities "algorithms") 0)
   == 0.2 * inject_Z (Z.of_nat (match_total t entities)))%Q.
Proof.
  unfold match_total. rewrite !add_matches_count, Nat2Z.inj_add, inject_Z_plus.
  generalize (inject_Z (Z.of_nat (count_matches t (entity_list entities "algorithms")))).
  generalize (inject_Z (Z.of_nat (count_matches t (entity_list entities "diseases")))).
  intros k1 k2. lra.
Qed.

Lemma Qmin_cap (a : Q) (n : nat) :
  (a == 0.2 * inject_Z (Z.of_nat n))%Q →
  (n = 0%nat ∧ Qmin a 0.6 == 0)%Q ∨ (n = 1%nat ∧ Qmin a 0.6 == 0.2)%Q ∨
  (n = 2%nat ∧ Qmin a 0.6 == 0.4)%Q ∨ ((3 ≤ n)%nat ∧ Qmin a 0.6 == 0.6)%Q.
Proof.
  intros Ha.
  destruct n as [|[|[|n]]].
  - left. split; [done|]. change (inject_Z (Z.of_nat 0)) with 0%Q in Ha.
    destruct (Q.min_spec a 0.6) as [[? ->]|[? ->]]; lra.
  - right. left. split; [done|]. change (inject_Z (Z.of_nat 1)) with 1%Q in Ha.
    destruct (Q.min_spec a 0.6) as [[? ->]|[? ->]]; lra.
  - right. right. left. split; [done|]. change (inject_Z (Z.of_nat 2)) with 2%Q in Ha.
    destruct (Q.min_spec a 0.6) as [[? ->]|[? ->]]; lra.
  - right. right. right. split; [lia|].
    assert (3 <= inject_Z (Z.of_nat (S (S (S n)))))%Q as H3
      by (unfold Qle; simpl; lia).
    revert Ha H3. generalize (inject_Z (Z.of_nat (S (S (S n))))). intros k Ha H3.
    destruct (Q.min_spec a 0.6) as [[? ->]|[? ->]]; lra.
Qed.

(** X18. The entity boost of a string takes one of four values, by the
    number of entries of the two entity lists that occur in the lower-cased
    text: 0 for none, 0.2 for one, 0.4 for two and 0.6 for three or more. *)
Theorem entity_match_boost_values (s : string) (entities : gmap string (list string)) :
  ∃ b, entity_match_boost (VStr s) entities = Some b ∧
       ((match_total (lower s) entities = 0%nat ∧ b == 0)%Q ∨
        (match_total (lower s) entities = 1%nat ∧ b == 0.2)%Q ∨
        (match_total (lower s) entities = 2%nat ∧ b == 0.4)%Q ∨
        ((3 ≤ match_total (lower s) entities)%nat ∧ b == 0.6)%Q).
Proof.
  rewrite entity_match_boost_str. eexists. split; [done|].
  apply Qmin_cap, add_matches_total.
Qed.

Lemma add_matches_none t xs score :
  Forall (fun x => str_in x t = false) xs → add_matches t xs score = score.
Proof.
  unfold add_matches. induction 1 as [|x xs Hx _ IH]; simpl; [done|].
  by rewrite Hx.
Qed.

Lemma no_upper_no_match s x : no_upper x = false → str_in x (lower s) = false.
Proof.
  intros Hx. destruct (str_in x (lower s)) eqn:Hin; [|done].
  by rewrite (no_upper_substring _ _ Hin (no_upper_lower s)) in Hx.
Qed.

(** X19. Entities are compared with the lower-cased text as they are: an
    entity with an upper-case character never matches, so entities that all
    have one earn no boost; and an entity set without the keys "algorithms"
    and "diseases" earns none either. *)
Theorem entity_match_boost_no_match (s : string) (entities : gmap string (list string)) :
  (Forall (fun x => no_upper x = false)
     (entity_list entities "algorithms" ++ entity_list entities "diseases") →
   entity_match_boost (VStr s) entities = Some 0%Q) ∧
  (entities !! "algorithms" = None → entities !! "diseases" = None →
   entity_match_boost (VStr s) entities = Some 0%Q).
Proof.
  split.
  - intros [Ha Hd]%Forall_app. rewrite entity_match_boost_str.
    rewrite !add_matches_none; [done| |].
    + eapply Forall_impl; [exact Ha|]. intros x. apply no_upper_no_match.
    + eapply Forall_impl; [exact Hd|]. intros x. apply no_upper_no_match.
  - intros Ha Hd. rewrite entity_match_boost_str. unfold entity_list. by rewrite Ha, Hd.
Qed.

Lemma entity_match_boost_no_match_witness :
  entity_match_boost (VStr "an SVM classification model") {[ "algorithms" := ["SVM"] ]}
    = Some 0%Q ∧
  entity_match_boost (VStr "an SVM classification model") {[ "sections" := ["svm"] ]}
    = Some 0%Q.
Proof.
  split.
  - apply (proj1 (entity_match_boost_no_match _ _)). vm_compute. repeat constructor.
  - apply (proj2 (entity_match_boost_no_match _ _)); reflexivity.
Defined.

Lemma count_matches_perm t xs ys : xs ≡ₚ ys → count_matches t xs = count_matches t ys.
Proof. intros H. unfold count_matches. by rewrite H. Qed.

Lemma count_matches_app t xs ys :
  count_matches t (xs ++ ys) = (count_matches t xs + count_matches t ys)%nat.
Proof. unfold count_matches. by rewrite filter_app, length_app. Qed.

(** X20. Only the entries count, not their order nor the list they are in:
    two entity sets whose algorithms and diseases taken together are the
    same up to order earn the same boost. *)
Theorem entity_match_boost_order (s : string) (entities1 entities2 : gmap string (list string)) :
  entity_list entities1 "algorithms" ++ entity_list entities1 "diseases" ≡ₚ
  entity_list entities2 "algorithms" ++ entity_list entities2 "diseases" →
  ∃ b1 b2, entity_match_boost (VStr s) entities1 = Some b1 ∧
           entity_match_boost (VStr s) entities2 = Some b2 ∧ (b1 == b2)%Q.
Proof.
  intros Hp. rewrite !entity_match_boost_str. eexists _, _. split; [done|]. split; [done|].
  assert (match_total (lower s) entities1 = match_total (lower s) entities2) as Hn.
  { unfold match_total. rewrite <- !count_matches_app. by apply count_matches_perm. }
  pose proof (add_matches_total (lower s) entities1) as H1.
  pose proof (add_matches_total (lower s) entities2) as H2.
  rewrite Hn in H1. rewrite <- H2 in H1.
  revert H1. generalize (add_matches (lower s) (entity_list entities1 "diseases")
              (add_matches (lower s) (entity_list entities1 "algorithms") 0)).
  generalize (add_matches (lower s) (entity_list entities2 "diseases")
              (add_matches (lower s) (entity_list entities2 "algorithms") 0)).
  intros a2 a1 H.
  destruct (Q.min_spec a1 0.6) as [[? ->]|[? ->]];
    destruct (Q.min_spec a2 0.6) as [[? ->]|[? ->]]; lra.
Qed.

Lemma entity_match_boost_order_witness :
  ∃ b1 b2,
    entity_match_boost (VStr "svm for lung cancer")
      {[ "algorithms" := ["svm"; "rf"]; "diseases" := ["lung cancer"] ]} = Some b1 ∧
    entity_match_boost (VStr "svm for lung cancer")
      {[ "algorithms" := ["lung cancer"]; "diseases" := ["rf"; "svm"] ]} = Some b2 ∧
    (b1 == b2)%Q.
Proof.
  apply entity_match_boost_order. vm_compute.
  apply (Permutation_trans (l' := ["svm"; "lung cancer"; "rf"])).
  - apply perm_skip, perm_swap.
  - apply (Permutation_trans (l' := ["lung cancer"; "svm"; "rf"])).
    + apply perm_swap.
    + apply perm_skip, perm_swap.
Defined.

(** ** Scores *)

(** X21. With a tag of the domain-tag set every score lies between 0.04 and
    0.72, and with any other tag between 0 and 0.68: a score is at least
    0.2 * proximity and at most 0.68 + 0.2 * proximity, and never above
    0.72. *)
Theorem score_range (question tag : string) (rows : list (gmap string value))
    (entities : gmap string (list string)) (out : list (gmap string value)) :
  score_items question tag rows entities = Some out →
  Forall (fun o => ∃ f, o !! "_score" = Some (VFloat f) ∧
                        (0.2 * proximity tag <= f <= 0.68 + 0.2 * proximity tag)%Q ∧
                        (f <= 0.72)%Q) out.
Proof.
  intros H. eapply Forall_impl; [exact (scored_rows_weighted _ _ _ _ _ H)|].
  intros o (r & f & _ & (lex & ent & Hlex & Hent & ->) & Hc).
  eexists. split; [by apply scored_copy_lookups in Hc as (? & _)|].
  apply lexical_overlap_bounds in Hlex. apply entity_match_boost_bounds in Hent.
  pose proof (proximity_bounds tag). lra.
Qed.

Lemma score_range_witness :
  ∃ out,
    score_items "dry cough" "Symptoms" two_rows ∅ = Some out ∧
    Forall (fun o => ∃ f, o !! "_score" = Some (VFloat f) ∧
                          (0.2 * proximity "Symptoms" <= f <= 0.68 + 0.2 * proximity "Symptoms")%Q ∧
                          (f <= 0.72)%Q) out.
Proof.
  assert (∃ out, score_items "dry cough" "Symptoms" two_rows ∅ = Some out) as [out Hout]
    by (eexists; vm_compute; reflexivity).
  exists out. exact (conj Hout (score_range _ _ _ _ _ Hout)).
Defined.

Lemma row_text_empty r :
  truthy (dict_get r "text") = false → truthy (dict_get r "item") = false →
  truthy (dict_get r "model") = false → row_text r = VStr EmptyString.
Proof. unfold row_text, py_or. by intros -> -> ->. Qed.

Lemma no_match_in_empty xs :
  Forall (fun x => x ≠ EmptyString) xs → Forall (fun x => str_in x EmptyString = false) xs.
Proof.
  intros H. eapply Forall_impl; [exact H|]. intros x Hx.
  destruct (str_in x EmptyString) eqn:Hin; [|done]. by apply str_in_empty_r in Hin.
Qed.

(** X22. A row without usable text (each of "text", "item" and "model"
    absent or falsy) is scored on the empty string: no overlap, and no
    entity boost as long as no entity is the empty string, so its score is
    0.2 * proximity whatever the question. *)
Theorem score_without_text (question tag : string) (r : gmap string value)
    (entities : gmap string (list string)) :
  truthy (dict_get r "text") = false →
  truthy (dict_get r "item") = false →
  truthy (dict_get r "model") = false →
  Forall (fun x => x ≠ EmptyString)
    (entity_list entities "algorithms" ++ entity_list entities "diseases") →
  ∃ f, score_row question tag entities r =
         Some (<["_tag" := VStr tag]> (<["_score" := VFloat f]> r)) ∧
       (f == 0.2 * proximity tag)%Q.
Proof.
  intros Ht Hi Hm [Ha Hd]%Forall_app.
  unfold score_row, final_score. cbv zeta.
  rewrite (row_text_empty r Ht Hi Hm), lexical_overlap_str, entity_match_boost_str.
  simpl. rewrite !add_matches_none by (by apply no_match_in_empty).
  rewrite orb_true_r. eexists. split; [done|].
  change (Qmin 0 0.6) with 0%Q. generalize (proximity tag). intros p. lra.
Qed.

Lemma score_without_text_witness :
  ∃ f, score_row "what is the accuracy" "Dataset" scenario_entities
         {[ "name" := VStr "survey"; "instances" := VInt 1000; "text" := VNone ]} =
         Some (<["_tag" := VStr "Dataset"]> (<["_score" := VFloat f]>
                 {[ "name" := VStr "survey"; "instances" := VInt 1000; "text" := VNone ]})) ∧
       (f == 0.2 * proximity "Dataset")%Q.
Proof.
  apply score_without_text; try reflexivity.
  vm_compute. repeat constructor; discriminate.
Defined.

Lemma final_score_None question tag r entities :
  final_score question tag r entities = None ↔ non_text (row_text r).
Proof.
  rewrite <- or_empty_lower_None.
  unfold final_score, lexical_overlap_score, entity_match_boost, _tokenize. cbv zeta.
  rewrite or_empty_lower_str. simpl.
  destruct (or_empty_lower (row_text r)); [|done]. simpl.
  by destruct (_ || _).
Qed.

(** X23. [score_items] raises exactly when the scoring target of some row
    is not a string, that is, when the first truthy value among its fields
    "text", "item" and "model" is a number or [True]. *)
Theorem score_items_raises (question tag : string) (rows : list (gmap string value))
    (entities : gmap string (list string)) :
  score_items question tag rows entities = None ↔
  Exists (fun r => non_text (row_text r)) rows.
Proof.
  assert (∀ r, score_row question tag entities r = None ↔ non_text (row_text r)) as Hrow.
  { intros r. rewrite <- (final_score_None question tag r entities).
    unfold score_row. cbv zeta.
    destruct (final_score question tag r entities) as [f|];
      [split; intros H; cbn in H; discriminate H | done]. }
  unfold score_items.
  destruct (mapM (score_row question tag entities) rows) as [scored|] eqn:Hs; simpl.
  - split.
    + intros Hnone.
      destruct (list_sort_reverse_total score_key scored) as [out Hout]; [|congruence].
      by eapply scored_rows_keys.
    + intros Hex. exfalso.
      assert (mapM (score_row question tag entities) rows = None); [|congruence].
      apply mapM_None. eapply Exists_impl; [exact Hex|]. intros r. apply Hrow.
  - split; [|done]. intros _. apply mapM_None in Hs.
    eapply Exists_impl; [exact Hs|]. intros r. apply Hrow.
Qed.

Lemma score_items_raises_witness :
  score_items "best model" "Results"
    [ {[ "model" := VStr "Random Forest" ]}; {[ "model" := VInt 7 ]} ] ∅ = None.
Proof.
  apply (proj2 (score_items_raises _ _ _ _)).
  apply Exists_cons_tl, Exists_cons_hd. split; [reflexivity | discriminate].
Defined.

(** ** Scoring again, and the top of the ranking *)

Lemma scored_copy_row_text tag f r o : scored_copy tag f r o → row_text o = row_text r.
Proof.
  intros H. apply scored_copy_lookups in H as (_ & _ & Hk).
  unfold row_text, dict_get. by rewrite !Hk.
Qed.

Lemma scored_copy_again tag f r o :
  scored_copy tag f r o → scored_copy tag f o o.
Proof.
  unfold scored_copy. intros ->.
  rewrite (insert_insert_ne _ "_score" "_tag") by done.
  by rewrite !insert_insert_eq.
Qed.

Lemma score_row_fixed question tag entities r o :
  score_row question tag entities r = Some o → score_row question tag entities o = Some o.
Proof.
  intros H. apply score_row_Some in H as (f & Hf & Hc).
  apply score_row_Some. exists f. split; [|by eapply scored_copy_again].
  unfold final_score in *. by rewrite (scored_copy_row_text _ _ _ _ Hc).
Qed.

Lemma mapM_fixed {X} (f : X → option X) (l : list X) :
  Forall (fun x => f x = Some x) l → mapM f l = Some l.
Proof. intros H. apply mapM_Some. induction H; constructor; done. Qed.

Lemma sort_desc_sorted_id {X} (ps : list (Q * X)) :
  StronglySorted key_ge ps → sort_desc ps = ps.
Proof.
  induction 1 as [|x ps Hs IH Hx]; [done|].
  change (sort_desc (x :: ps)) with (insert_desc x (sort_desc ps)). rewrite IH.
  destruct ps as [|y ps]; [done|]. simpl.
  apply Forall_cons in Hx as [Hy _]. unfold key_ge in Hy.
  apply Qle_bool_iff in Hy. by rewrite Hy.
Qed.

(** Sorting what a sort returned returns it again. *)
Lemma list_sort_reverse_again {X} (key : X → option Q) (l out : list X) :
  list_sort_reverse key l = Some out → list_sort_reverse key out = Some out.
Proof.
  unfold list_sort_reverse. intros H.
  destruct (mapM key l) as [keys|] eqn:Hkeys; [|done]. simpl in H. simplify_eq.
  destruct (keyed_zip _ _ _ Hkeys) as [Hk _].
  assert (keyed key (sort_desc (zip keys l))) as Hk'
    by (unfold keyed; by rewrite sort_desc_perm).
  pose proof (sort_desc_sorted (zip keys l)) as Hs.
  revert Hk' Hs. generalize (sort_desc (zip keys l)). intros ps Hk' Hs.
  assert (mapM key (ps.*2) = Some (ps.*1)) as ->.
  { apply mapM_Some. unfold keyed in Hk'.
    induction Hk' as [|p ps Hp _ IH]; simpl; constructor; [done|].
    apply IH. by apply StronglySorted_inv in Hs as [? _]. }
  simpl. by rewrite zip_fst_snd, (sort_desc_sorted_id _ Hs).
Qed.

(** X24. Scoring the rows that [score_items] returned, with the same
    question, tag and entities, returns them unchanged: the two fields are
    overwritten with the same values and the order is kept. *)
Theorem score_items_again (question tag : string) (rows : list (gmap string value))
    (entities : gmap string (list string)) (out : list (gmap string value)) :
  score_items question tag rows entities = Some out →
  score_items question tag out entities = Some out.
Proof.
  unfold score_items. intros H.
  destruct (mapM (score_row question tag entities) rows) as [scored|] eqn:Hs; [|done].
  simpl in H.
  assert (Forall (fun o => score_row question tag entities o = Some o) scored) as Hfix.
  { apply mapM_Some in Hs. clear H.
    induction Hs as [|r o ? ? Hr _ IH]; [constructor|].
    constructor; [by eapply score_row_fixed | done]. }
  pose proof (list_sort_reverse_spec _ _ _ H) as (Hperm & _ & _).
  rewrite <- Hperm in Hfix. rewrite (mapM_fixed _ _ Hfix). simpl.
  by eapply list_sort_reverse_again.
Qed.

Lemma score_items_again_witness :
  ∃ out,
    score_items "dry cough" "Symptoms" two_rows ∅ = Some out ∧
    score_items "dry cough" "Symptoms" out ∅ = Some out.
Proof.
  assert (∃ out, score_items "dry cough" "Symptoms" two_rows ∅ = Some out) as [out Hout]
    by (eexists; vm_compute; reflexivity).
  exists out. exact (conj Hout (score_items_again _ _ _ _ _ Hout)).
Defined.

(** X25. [select_top_n] returns a prefix of its list: the first [n] rows
    for [n] from 0 on, the whole list when it has at most [n] rows (so with
    the default of 8, any list of up to eight rows), and for a negative [n]
    all rows but the last [-n]. *)
Theorem select_top_n_prefix {X} (l : list X) (n : Z) :
  select_top_n l n `prefix_of` l ∧
  ((0 <= n)%Z → List.length (select_top_n l n) = Nat.min (Z.to_nat n) (List.length l)) ∧
  ((n < 0)%Z → List.length (select_top_n l n) = (List.length l - Z.to_nat (- n))%nat) ∧
  ((Z.of_nat (List.length l) <= n)%Z → select_top_n l n = l) ∧
  ((List.length l ≤ 8)%nat → select_top_n_default l = l).
Proof.
  unfold select_top_n_default, select_top_n, slice_to.
  split; [|split; [|split; [|split]]].
  - destruct (0 <=? n)%Z; apply prefix_take.
  - intros Hn. rewrite (proj2 (Z.leb_le 0 n) Hn). apply length_take.
  - intros Hn. rewrite (proj2 (Z.leb_gt 0 n) Hn), length_take. lia.
  - intros Hn. rewrite (proj2 (Z.leb_le 0 n)) by lia. apply take_ge. lia.
  - intros Hn. simpl. apply take_ge. lia.
Qed.

Lemma select_top_n_prefix_witness :
  select_top_n_default [1; 2; 3; 4; 5]%nat = [1; 2; 3; 4; 5]%nat ∧
  List.length (select_top_n [1; 2; 3; 4; 5]%nat (-2)) = 3%nat ∧
  List.length (select_top_n [1; 2; 3; 4; 5]%nat 2) = 2%nat.
Proof.
  split; [|split].
  - apply (proj2 (proj2 (proj2 (proj2 (select_top_n_prefix [1; 2; 3; 4; 5]%nat 8))))).
    simpl. lia.
  - apply (proj1 (proj2 (proj2 (select_top_n_prefix [1; 2; 3; 4; 5]%nat (-2))))). lia.
  - apply (proj1 (proj2 (select_top_n_prefix [1; 2; 3; 4; 5]%nat 2))). lia.
Defined.

(** X26. The top [n] of a ranking are its best rows: cutting the output of
    [score_items] after [n] rows keeps a list in descending order of
    [_score], and no row that is cut off has a higher score than a row that
    is kept. *)
Theorem select_top_n_best (question tag : string) (rows : list (gmap string value))
    (entities : gmap string (list string)) (out : list (gmap string value)) (n : Z) :
  score_items question tag rows entities = Some out →
  (0 <= n)%Z →
  out = select_top_n out n ++ drop (Z.to_nat n) out ∧
  StronglySorted (key_desc score_key) (select_top_n out n) ∧
  ∀ a b, a ∈ select_top_n out n → b ∈ drop (Z.to_nat n) out → key_desc score_key a b.
Proof.
  unfold score_items. intros H Hn.
  destruct (mapM (score_row question tag entities) rows) as [scored|]; [|done].
  simpl in H. apply list_sort_reverse_spec in H as (_ & Hs & _).
  unfold select_top_n, slice_to. rewrite (proj2 (Z.leb_le 0 n) Hn).
  rewrite <- (take_drop (Z.to_nat n) out) in Hs.
  split; [by rewrite take_drop|]. split.
  - by eapply StronglySorted_app_1_l.
  - intros a b Ha Hb. by eapply StronglySorted_app_1_elem_of.
Qed.

Lemma select_top_n_best_witness :
  ∃ out,
    score_items "dry cough" "Symptoms" two_rows ∅ = Some out ∧
    ∀ a b, a ∈ select_top_n out 1 → b ∈ drop (Z.to_nat 1) out → key_desc score_key a b.
Proof.
  assert (∃ out, score_items "dry cough" "Symptoms" two_rows ∅ = Some out) as [out Hout]
    by (eexists; vm_compute; reflexivity).
  exists out. split; [exact Hout|].
  apply (select_top_n_best _ _ _ _ _ 1 Hout). lia.
Defined.

(** ** Classifier and ranker together *)

Lemma extracted_entities_nonempty question :
  Forall (fun x => x ≠ EmptyString)
    (entity_list (_extract_entities question) "algorithms" ++
     entity_list (_extract_entities question) "diseases").
Proof.
  rewrite extract_algorithms, extract_diseases. unfold ALGORITHM_ALIASES. simpl.
  repeat match goal with
         | |- context [str_in ?k ?q] => destruct (str_in k q)
         end; simpl; repeat constructor; discriminate.
Qed.

(** X27. With the entities extracted from a question, whatever it is, a row
    without usable text is scored 0.2 * proximity and a row whose text is a
    string is always scored: the classifier never produces an entity that
    matches the empty text. *)
Theorem score_with_extracted_entities (asked question tag : string) (r : gmap string value) :
  (truthy (dict_get r "text") = false →
   truthy (dict_get r "item") = false →
   truthy (dict_get r "model") = false →
   ∃ f, score_row question tag (_extract_entities asked) r =
          Some (<["_tag" := VStr tag]> (<["_score" := VFloat f]> r)) ∧
        (f == 0.2 * proximity tag)%Q) ∧
  (text_is_str r → is_Some (score_row question tag (_extract_entities asked) r)).
Proof.
  split; [|apply score_row_total].
  intros Ht Hi Hm.
  pose proof (extracted_entities_nonempty asked) as [Ha Hd]%Forall_app.
  unfold score_row, final_score. cbv zeta.
  rewrite (row_text_empty r Ht Hi Hm), lexical_overlap_str, entity_match_boost_str.
  simpl. rewrite !add_matches_none by (by apply no_match_in_empty).
  rewrite orb_true_r. eexists. split; [done|].
  change (Qmin 0 0.6) with 0%Q. generalize (proximity tag). intros p. lra.
Qed.

Lemma score_with_extracted_entities_witness :
  ∃ f, score_row "which svm model" "Dataset" (_extract_entities "which svm model")
         {[ "name" := VStr "survey" ]} =
         Some (<["_tag" := VStr "Dataset"]> (<["_score" := VFloat f]>
                 {[ "name" := VStr "survey" ]})) ∧
       (f == 0.2 * proximity "Dataset")%Q.
Proof.
  apply (proj1 (score_with_extracted_entities "which svm model" "which svm model" "Dataset"
                  {[ "name" := VStr "survey" ]})); reflexivity.
Defined.
